(** * OptParser: a shallow embedding of [OptParser.hpp] and its properties

    The development follows the header top-down: the regular expression
    used to classify tokens, the option registry ([addOption]), the query
    surface ([gotOption], [optionValue], [getArgs]), the parse loop
    ([parse]), the name form ([optName]) and the stream operator; the
    integer conversions of the string utilities ([strTo], [strFrom]) come
    last.

    Modelling conventions:
    - [std::string] is [string] (a list of 8-bit characters);
    - [std::vector] is [list], indexed with stdpp's lookup; every index the
      code uses comes from [find_if] over [opt_] or from [expectVal], and
      lemma [parse_loop_inv] shows those stay below [opt_.size()];
    - [int] indices ([expectVal], the result of [optIndex]) are [Z] with
      [-1] as the sentinel, registries being far smaller than [2^31];
    - a thrown exception is the left injection of a sum;
    - the lines written to [std::cerr] are collected, in order, as a list
      of structured warnings, [warning_text] giving the text of each. *)

From Stdlib Require Import Ascii.
From stdpp Require Import base strings list pretty.

Local Open Scope Z_scope.

(** ** Regular expressions: the fragment of ECMAScript used by [optRegex] *)

Module Regex.

(** One-character matchers. *)
Inductive atom :=
  | Chr (c : ascii)                        (* a literal character *)
  | Any                                    (* [.] *)
  | Bracket (ranges : list (ascii * ascii)) (* [[a-zA-Z_-]], singles as [c-c] *).

(** Patterns; [+] is only ever applied to a one-character matcher. *)
Inductive regex :=
  | Atom (a : atom)
  | Plus (a : atom)             (* greedy [a+] *)
  | Cat (r1 r2 : regex)
  | Alt (r1 r2 : regex)         (* [r1|r2], left alternative first *)
  | Opt (r : regex)             (* greedy [r?] *)
  | Group (n : nat) (r : regex) (* the [n]-th capturing parenthesis *).

(** [std::smatch]: entry [n] is [Some s] when sub-match [n] matched [s]. *)
Definition smatch := list (option string).

Definition in_range (c : ascii) (r : ascii * ascii) : bool :=
  (nat_of_ascii (fst r) <=? nat_of_ascii c)%nat
  && (nat_of_ascii c <=? nat_of_ascii (snd r))%nat.

(** In the ECMAScript grammar [.] matches everything but line terminators. *)
Definition is_line_terminator (c : ascii) : bool :=
  bool_decide (c = "010"%char) || bool_decide (c = "013"%char).

Definition atom_match (a : atom) (c : ascii) : bool :=
  match a with
  | Chr c' => bool_decide (c = c')
  | Any => negb (is_line_terminator c)
  | Bracket ranges => existsb (in_range c) ranges
  end.

(** The text between two positions of the same token, each position being
    given by the suffix that remains to be read. *)
Definition consumed (s s' : string) : string :=
  String.substring 0 (String.length s - String.length s') s.

(** Backtracking matcher in continuation-passing style: [k] is what remains
    to be matched after the current sub-pattern. Greedy operators try the
    longer match first and fall back when the continuation fails. *)
Fixpoint plus_greedy (a : atom) (s : string) (sm : smatch)
    (k : string → smatch → option smatch) : option smatch :=
  match s with
  | String c s' =>
      if atom_match a c then
        match plus_greedy a s' sm k with
        | Some r => Some r
        | None => k s' sm
        end
      else None
  | EmptyString => None
  end.

Fixpoint run (r : regex) (s : string) (sm : smatch)
    (k : string → smatch → option smatch) : option smatch :=
  match r with
  | Atom a =>
      match s with
      | String c s' => if atom_match a c then k s' sm else None
      | EmptyString => None
      end
  | Plus a => plus_greedy a s sm k
  | Cat r1 r2 => run r1 s sm (λ s' sm', run r2 s' sm' k)
  | Alt r1 r2 =>
      match run r1 s sm k with
      | Some res => Some res
      | None => run r2 s sm k
      end
  | Opt r1 =>
      match run r1 s sm k with
      | Some res => Some res
      | None => k s sm
      end
  | Group n r1 => run r1 s sm (λ s' sm', k s' (<[n := Some (consumed s s')]> sm'))
  end.

(** Number of sub-matches of a pattern, the whole match included. *)
Fixpoint mark_count (r : regex) : nat :=
  match r with
  | Atom _ | Plus _ => 0
  | Cat r1 r2 | Alt r1 r2 => mark_count r1 + mark_count r2
  | Opt r1 => mark_count r1
  | Group _ r1 => S (mark_count r1)
  end.

(** [std::regex_match]: the whole string has to be matched. *)
Definition regex_match (s : string) (r : regex) : option smatch :=
  run r s (replicate (S (mark_count r)) None)
    (λ s' sm', if bool_decide (s' = EmptyString) then Some (<[0%nat := Some s]> sm') else None).

(** [sm[n].matched] and [sm[n].str()]. *)
Definition matched (sm : smatch) (n : nat) : bool :=
  match sm !! n with Some (Some _) => true | _ => false end.

Definition str (sm : smatch) (n : nat) : string :=
  match sm !! n with Some (Some s) => s | _ => EmptyString end.

End Regex.

Import Regex.

(** [constexpr char optRegex[] = "(-([a-zA-Z])(.+)?)|(--([a-zA-Z_-]+)=?(.+)?)"] *)
Definition letters : atom :=
  Bracket [("a", "z"); ("A", "Z")]%char.
Definition name_chars : atom :=
  Bracket [("a", "z"); ("A", "Z"); ("_", "_"); ("-", "-")]%char.

Definition optRegex_ : regex :=
  Alt
    (Group 1 (Cat (Atom (Chr "-")) (Cat (Group 2 (Atom letters)) (Opt (Group 3 (Plus Any))))))
    (Group 4 (Cat (Atom (Chr "-")) (Cat (Atom (Chr "-"))
       (Cat (Group 5 (Plus name_chars)) (Cat (Opt (Atom (Chr "="))) (Opt (Group 6 (Plus Any)))))))).

(** ** Data model *)

Module OptType.
Inductive t := value | trigger.
#[global] Instance eq_dec : EqDecision t.
Proof. solve_decision. Defined.
End OptType.

Record OptPar := {
  shortName : string;
  longName : string;
  defaultVal : string;
  helpMessage : string;
  type : OptType.t;
  optional : bool
}.

Record OptRes := {
  value : string;
  present : bool
}.

(** The data members of the class ([optRegex_] is the static above). *)
Record OptParser := {
  opt_ : list OptPar;
  result_ : list OptRes;
  arg_ : list string
}.

(** A value-initialised [OptRes], as produced by [vector::resize]. *)
#[global] Instance OptRes_inhabited : Inhabited OptRes :=
  populate {| value := ""; present := false |}.
#[global] Instance OptPar_inhabited : Inhabited OptPar :=
  populate {| shortName := ""; longName := ""; defaultVal := ""; helpMessage := "";
              type := OptType.value; optional := false |}.

(** [OptParser(void) = default] *)
Definition new_parser : OptParser := {| opt_ := []; result_ := []; arg_ := [] |}.

(** The exceptions the class throws, with their [what()] text. *)
Inductive exception :=
  | logic_error (what : string)
  | runtime_error (what : string)
  | out_of_range (what : string).

(** [std::string::empty] *)
Definition empty (s : string) : bool := bool_decide (s = "").

(** [std::find_if]: position and element of the first match, if any. *)
Definition find_if {A} (f : A → bool) (l : list A) : option (nat * A) :=
  list_find (λ x, f x = true) l.

(** ** Access *)

(** The lambda of [addOption]. *)
Definition collides (par p : OptPar) : bool :=
  let match_ := false in
  let match_ := match_ || (bool_decide (shortName par = shortName p) && negb (empty (shortName par))) in
  let match_ := match_ || (bool_decide (longName par = longName p) && negb (empty (longName par))) in
  match_.

(** The name put in the message of the duplicate-option error. *)
Definition duplicate_name (it : OptPar) : string :=
  let opt := "" in
  let opt := if negb (empty (shortName it)) then opt +:+ "-" +:+ shortName it else opt in
  let opt := if negb (empty opt) then opt +:+ "/" else opt in
  let opt := if negb (empty (longName it)) then opt +:+ "--" +:+ longName it else opt in
  opt.

Definition addOption (shortName longName : string) (type : OptType.t)
    (optional : bool) (helpMessage defaultVal : string)
    (self : OptParser) : exception + OptParser :=
  let par := {| shortName := shortName; longName := longName; defaultVal := defaultVal;
                helpMessage := helpMessage; type := type; optional := optional |} in
  match find_if (collides par) (opt_ self) with
  | Some (_, it) => inl (logic_error ("duplicate option " +:+ duplicate_name it))
  | None => inr {| opt_ := opt_ self ++ [par]; result_ := result_ self; arg_ := arg_ self |}
  end.

Definition optIndex (name : string) (self : OptParser) : Z :=
  match find_if (λ p, bool_decide (shortName p = name) || bool_decide (longName p = name))
          (opt_ self) with
  | Some (i, _) => Z.of_nat i
  | None => -1
  end.

Definition gotOption (name : string) (self : OptParser) : exception + bool :=
  let i := optIndex name self in
  if negb (bool_decide (length (result_ self) = length (opt_ self))) then
    inl (runtime_error "options not parsed")
  else if bool_decide (0 ≤ i) then
    inr (present (result_ self !!! Z.to_nat i))
  else
    inl (out_of_range ("no option with name '" +:+ name +:+ "'")).

(** [optionValue<std::string>], for which [strTo] is the identity. *)
Definition strTo (s : string) : string := s.

Definition optionValue (name : string) (self : OptParser) : exception + string :=
  let i := optIndex name self in
  if negb (bool_decide (length (result_ self) = length (opt_ self))) then
    inl (runtime_error "options not parsed")
  else if bool_decide (0 ≤ i) then
    inr (strTo (value (result_ self !!! Z.to_nat i)))
  else
    inl (out_of_range ("no option with name '" +:+ name +:+ "'")).

Definition getArgs (self : OptParser) : list string := arg_ self.

(** ** Option name for messages *)

Definition optName (opt : OptPar) : string :=
  let res := "" in
  let res :=
    if negb (empty (shortName opt)) then
      let res := res +:+ "-" +:+ shortName opt in
      if negb (empty (longName opt)) then res +:+ "/" else res
    else res in
  let res :=
    if negb (empty (longName opt)) then
      let res := res +:+ "--" +:+ longName opt in
      if bool_decide (type opt = OptType.value) then res +:+ "=" else res
    else res in
  res.

(** ** Parse *)

(** What [parse] writes to [std::cerr], one constructor per kind of line;
    [got] is the option token met where a value was expected, if any. *)
Inductive warning :=
  | MissingValue (name : string) (got : option string)
  | UnknownOption (token : string)
  | MissingMandatoryOption (name : string).

Definition warning_text (w : warning) : string :=
  match w with
  | MissingValue name (Some tok) =>
      "warning: expected value for option " +:+ name +:+ ", got option '" +:+ tok +:+ "' instead"
  | MissingValue name None => "warning: expected value for option " +:+ name
  | UnknownOption tok => "warning: unknown option '" +:+ tok +:+ "'"
  | MissingMandatoryOption name => "warning: mandatory option " +:+ name +:+ " is missing"
  end.

(** The object together with the locals of [parse] and the error stream. *)
Record frame := {
  this : OptParser;
  expectVal : Z;
  isCorrect : bool;
  cerr : list warning
}.

Definition set_present (i : nat) (self : OptParser) : OptParser :=
  {| opt_ := opt_ self;
     result_ := alter (λ r, {| value := value r; present := true |}) i (result_ self);
     arg_ := arg_ self |}.

Definition set_value (i : nat) (v : string) (self : OptParser) : OptParser :=
  {| opt_ := opt_ self;
     result_ := alter (λ r, {| value := v; present := present r |}) i (result_ self);
     arg_ := arg_ self |}.

Definition push_arg (a : string) (self : OptParser) : OptParser :=
  {| opt_ := opt_ self; result_ := result_ self; arg_ := arg_ self ++ [a] |}.

(** The body shared by the short-option and long-option branches, which
    differ only in the name compared ([shortName] or [longName]) and in the
    sub-matches read ([sm[2]], [sm[3]] or [sm[5]], [sm[6]]). *)
Definition option_branch (name_of : OptPar → string) (n_name n_val : nat)
    (sm : smatch) (front : string) (st : frame) : frame :=
  let optName := str sm n_name in
  match find_if (λ p, bool_decide (name_of p = optName)) (opt_ (this st)) with
  | Some (i, it) =>
      let self := set_present i (this st) in
      if bool_decide (type it = OptType.value) then
        if matched sm n_val then
          {| this := set_value i (str sm n_val) self; expectVal := expectVal st;
             isCorrect := isCorrect st; cerr := cerr st |}
        else
          {| this := self; expectVal := Z.of_nat i;
             isCorrect := isCorrect st; cerr := cerr st |}
      else
        {| this := self; expectVal := expectVal st;
           isCorrect := isCorrect st; cerr := cerr st |}
  | None =>
      {| this := this st; expectVal := expectVal st; isCorrect := isCorrect st;
         cerr := cerr st ++ [UnknownOption front] |}
  end.

(** One iteration of the [while] loop, on the front of the queue. *)
Definition parse_step (front : string) (st : frame) : frame :=
  match regex_match front optRegex_ with
  | Some sm =>
      let st :=
        if bool_decide (0 ≤ expectVal st) then
          {| this := this st; expectVal := -1; isCorrect := false;
             cerr := cerr st
                     ++ [MissingValue (optName (opt_ (this st) !!! Z.to_nat (expectVal st)))
                           (Some front)] |}
        else st in
      if matched sm 1 then option_branch shortName 2 3 sm front st
      else if matched sm 4 then option_branch longName 5 6 sm front st
      else st
  | None =>
      if bool_decide (0 ≤ expectVal st) then
        {| this := set_value (Z.to_nat (expectVal st)) front (this st); expectVal := -1;
           isCorrect := isCorrect st; cerr := cerr st |}
      else
        {| this := push_arg front (this st); expectVal := expectVal st;
           isCorrect := isCorrect st; cerr := cerr st |}
  end.

Fixpoint parse_loop (arg : list string) (st : frame) : frame :=
  match arg with
  | [] => st
  | front :: arg => parse_loop arg (parse_step front st)
  end.

(** [result_.clear(); result_.resize(opt_.size()); arg_.clear();] and the
    loop copying the defaults; the locals get their initial values. *)
Definition parse_init (self : OptParser) : frame :=
  {| this := {| opt_ := opt_ self;
                result_ := (λ o, {| value := defaultVal o; present := false |}) <$> opt_ self;
                arg_ := [] |};
     expectVal := -1; isCorrect := true; cerr := [] |}.

(** The test made after the loop on a still pending [expectVal]. *)
Definition parse_pending (st : frame) : frame :=
  if bool_decide (0 ≤ expectVal st) then
    {| this := this st; expectVal := -1; isCorrect := false;
       cerr := cerr st
               ++ [MissingValue (optName (opt_ (this st) !!! Z.to_nat (expectVal st))) None] |}
  else st.

(** The final loop over the registry, [i] running over both vectors. *)
Definition mandatory_step (st : frame) (or : OptPar * OptRes) : frame :=
  if negb (optional or.1) && negb (present or.2) then
    {| this := this st; expectVal := expectVal st; isCorrect := false;
       cerr := cerr st ++ [MissingMandatoryOption (optName or.1)] |}
  else st.

Definition parse_mandatory (st : frame) : frame :=
  foldl mandatory_step st (zip (opt_ (this st)) (result_ (this st))).

(** [parse(argc, argv)] with [argc] the length of [argv]: the queue holds
    [argv[1]] .. [argv[argc-1]]. The frame returned carries the object
    after the call, the returned [isCorrect] and the lines written. *)
Definition parse (argv : list string) (self : OptParser) : frame :=
  parse_mandatory (parse_pending (parse_loop (drop 1 argv) (parse_init self))).

(** ** Print option list *)

Definition endl : string := String "010" "".

Fixpoint spaces (n : nat) : string :=
  match n with
  | O => ""
  | S n => String " " (spaces n)
  end.

(** [out << std::setw(w) << s] on a stream with the default fill character
    and adjustment: [s] is padded on the left up to [w] characters. *)
Definition setw (w : nat) (s : string) : string :=
  spaces (w - String.length s) +:+ s.

Definition print_option (out : string) (o : OptPar) : string :=
  let out := out +:+ setw 20 (optName o) in
  let out := out +:+ ": " +:+ helpMessage o in
  let out :=
    if negb (empty (defaultVal o)) then out +:+ " (default: " +:+ defaultVal o +:+ ")"
    else out in
  out +:+ endl.

(** [operator<<], the stream being the text written so far. *)
Definition print (out : string) (parser : OptParser) : string :=
  foldl print_option out (opt_ parser).

(** The registry of [tests/print-opt.cpp]. *)
Definition test_registry : exception + OptParser :=
  match addOption "a" "long-a" OptType.value false "option a" "" new_parser with
  | inr opt => addOption "b" "long-b" OptType.trigger false "option b" "" opt
  | inl e => inl e
  end.

Definition opt_a : OptPar :=
  {| shortName := "a"; longName := "long-a"; defaultVal := ""; helpMessage := "option a";
     type := OptType.value; optional := false |}.
Definition opt_b : OptPar :=
  {| shortName := "b"; longName := "long-b"; defaultVal := ""; helpMessage := "option b";
     type := OptType.trigger; optional := false |}.
Definition test_opt : OptParser := {| opt_ := [opt_a; opt_b]; result_ := []; arg_ := [] |}.

(** ** String utilities: the integer conversions

    [strTo<long>] and [strTo<int>] call [strtol(str.c_str(), NULL, 10)],
    modelled here as the C standard specifies it (7.22.1.4): white space
    is skipped, a sign is read, then the longest run of decimal digits; the
    result is 0 when there is no digit and is brought back to [LONG_MIN] or
    [LONG_MAX] when the number read is out of range. [strFrom<long>] writes
    its argument to a stream with the default formatting: decimal digits
    after a minus sign for a negative number. The widths of [long] and of
    [int] depend on the platform and are parameters. *)

Section integer_conversions.

Variable long_bits : Z.
Variable int_bits : Z.

Definition LONG_MAX : Z := 2 ^ (long_bits - 1) - 1.
Definition LONG_MIN : Z := - 2 ^ (long_bits - 1).

(** [isdigit] and the value of a digit. *)
Definition is_digit (c : ascii) : bool :=
  (48 <=? nat_of_ascii c)%nat && (nat_of_ascii c <=? 57)%nat.

Definition digit_value (c : ascii) : Z := Z.of_nat (nat_of_ascii c) - 48.

(** The white space [isspace] accepts in the C locale is skipped. *)
Fixpoint skip_space (s : string) : string :=
  match s with
  | String c s' => if Ascii.is_space c then skip_space s' else s
  | EmptyString => s
  end.

(** The number written by the longest run of digits at the head of [s],
    [acc] being the number read so far. *)
Fixpoint digits_value (acc : Z) (s : string) : Z :=
  match s with
  | String c s' => if is_digit c then digits_value (acc * 10 + digit_value c) s' else acc
  | EmptyString => acc
  end.

Definition strtol (s : string) : Z :=
  let s := skip_space s in
  let negative :=
    match s with
    | String c _ => bool_decide (c = "-"%char)
    | EmptyString => false
    end in
  let s :=
    match s with
    | String c s' => if bool_decide (c = "-"%char) || bool_decide (c = "+"%char) then s' else s
    | EmptyString => s
    end in
  let v := digits_value 0 s in
  let v := if negative then - v else v in
  if bool_decide (v < LONG_MIN) then LONG_MIN
  else if bool_decide (LONG_MAX < v) then LONG_MAX
  else v.

(** [strTo<long>] *)
Definition strTo_long (str : string) : Z := strtol str.

(** The conversion [(int)] of a [long]: the value modulo [2 ^ int_bits]
    that [int] can hold. *)
Definition to_int (v : Z) : Z :=
  (v + 2 ^ (int_bits - 1)) `mod` 2 ^ int_bits - 2 ^ (int_bits - 1).

(** [strTo<int>] *)
Definition strTo_int (str : string) : Z := to_int (strtol str).

End integer_conversions.

(** [strFrom<long>] *)
Definition strFrom_long (x : Z) : string := pretty x.

(** ** Definitions used to state the properties *)

(** Every character of [s] satisfies [f]. *)
Fixpoint str_all (f : ascii → bool) (s : string) : bool :=
  match s with
  | String c s' => f c && str_all f s'
  | EmptyString => true
  end.

(** Longest prefix whose characters satisfy [f], and what follows it. *)
Fixpoint span (f : ascii → bool) (s : string) : string * string :=
  match s with
  | String c s' => if f c then (String c (span f s').1, (span f s').2) else ("", s)
  | EmptyString => ("", "")
  end.

(** The first character of [s] exists and satisfies [f]. *)
Definition head_is (f : ascii → bool) (s : string) : bool :=
  match s with
  | String c _ => f c
  | EmptyString => false
  end.

(** A continuation that accepts exactly the end of the token. *)
Definition at_end (k : string → smatch → option smatch) (f : smatch → smatch) : Prop :=
  ∀ s sm, k s sm = if bool_decide (s = "") then Some (f sm) else None.

(** What [(.+)?] captures when it has to match [s] up to the end of the
    token: nothing on the empty text, all of [s] when it is free of line
    terminators; otherwise there is no match. *)
Definition trailing (s : string) : option (option string) :=
  if empty s then Some None
  else if str_all (atom_match Any) s then Some (Some s)
  else None.

(** The text read by [=?(.+)?] once a leading [=] has been skipped. *)
Definition after_equals (r : string) : string :=
  match r with
  | String c v => if bool_decide (c = "="%char) then v else r
  | EmptyString => r
  end.

(** Closed form of the first alternative of [optRegex], [-([a-zA-Z])(.+)?]:
    a dash, a letter, and the rest of the token as inline value. *)
Definition short_form (tok : string) : option smatch :=
  match tok with
  | String c0 (String c rest) =>
      if bool_decide (c0 = "-"%char) && atom_match letters c then
        match trailing rest with
        | Some v => Some [Some tok; Some tok; Some (String c ""); v; None; None; None]
        | None => None
        end
      else None
  | _ => None
  end.

(** Closed form of the second alternative, [--([a-zA-Z_-]+)=?(.+)?]: two
    dashes, the longest run of name characters, and what follows it, less
    a leading [=], as inline value. *)
Definition long_form (tok : string) : option smatch :=
  match tok with
  | String c0 (String c1 s) =>
      if bool_decide (c0 = "-"%char) && bool_decide (c1 = "-"%char) then
        let n := (span (atom_match name_chars) s).1 in
        let r := (span (atom_match name_chars) s).2 in
        if empty n then None
        else
          match trailing (after_equals r) with
          | Some v => Some [Some tok; None; None; None; Some tok; Some n; v]
          | None => None
          end
      else None
  | _ => None
  end.

(** Continuation reached at the end of [regex_match]. *)
Definition accept (tok : string) : string → smatch → option smatch :=
  λ s' sm', if bool_decide (s' = "") then Some (<[0%nat := Some tok]> sm') else None.

(** The sub-patterns [(.+)?] and [=?(.+)?]. *)
Definition trailing_re (n : nat) : regex := Opt (Group n (Plus Any)).
Definition tail_re : regex := Cat (Opt (Atom (Chr "="))) (trailing_re 6).

(** Sub-match [n] recorded when it took part in the match. *)
Definition with_capture (n : nat) (v : option string) (sm : smatch) : smatch :=
  match v with
  | Some x => <[n := Some x]> sm
  | None => sm
  end.

(** Registration of an already assembled descriptor. *)
Definition add (par : OptPar) (self : OptParser) : exception + OptParser :=
  addOption (shortName par) (longName par) (type par) (optional par)
    (helpMessage par) (defaultVal par) self.

(** Successive registrations, stopping at the first one that throws. *)
Fixpoint register_all (pars : list OptPar) (self : OptParser) : exception + OptParser :=
  match pars with
  | [] => inr self
  | par :: pars =>
      match add par self with
      | inr self' => register_all pars self'
      | inl e => inl e
      end
  end.

(** Two descriptors share a non-empty short name or a non-empty long name. *)
Definition share_name (p q : OptPar) : bool :=
  (bool_decide (shortName p = shortName q) && bool_decide (shortName p ≠ ""))
  || (bool_decide (longName p = longName q) && bool_decide (longName p ≠ "")).

(** No two descriptors of the list share a non-empty name. *)
Fixpoint distinct_names (pars : list OptPar) : bool :=
  match pars with
  | [] => true
  | p :: pars => forallb (λ q, negb (share_name p q)) pars && distinct_names pars
  end.

(** The states an [OptParser] object can be in. *)
Inductive reachable : OptParser → Prop :=
  | reachable_new : reachable new_parser
  | reachable_addOption self s l t o h d self' :
      reachable self → addOption s l t o h d self = inr self' → reachable self'
  | reachable_parse self argv :
      reachable self → reachable (this (parse argv self)).

(** Warnings that leave the result of [parse] alone. *)
Definition benign (w : warning) : bool :=
  match w with
  | UnknownOption _ => true
  | MissingValue _ _ | MissingMandatoryOption _ => false
  end.

(** The frame is consistent: one result per option, and a pending
    [expectVal] designates a registered option. *)
Definition frame_ok (st : frame) : Prop :=
  length (result_ (this st)) = length (opt_ (this st))
  ∧ -1 ≤ expectVal st < Z.of_nat (length (opt_ (this st))).

(** The option token carries a name no registered option has in the
    matching form. *)
Definition unregistered (opts : list OptPar) (sm : smatch) : Prop :=
  (matched sm 1 = true ∧ ∀ p, p ∈ opts → shortName p ≠ str sm 2)
  ∨ (matched sm 1 = false ∧ matched sm 4 = true ∧ ∀ p, p ∈ opts → longName p ≠ str sm 5).

(** The result store as [parse] builds it before reading the arguments. *)
Definition defaults (opts : list OptPar) : list OptRes :=
  (λ o, {| value := defaultVal o; present := false |}) <$> opts.

(** The name form without the mark of a value option. *)
Definition name_form (o : OptPar) : string :=
  (if empty (shortName o) then "" else "-" +:+ shortName o)
  +:+ (if empty (shortName o) || empty (longName o) then "" else "/")
  +:+ (if empty (longName o) then "" else "--" +:+ longName o).

(** The text printed for a non-empty default. *)
Definition default_clause (o : OptPar) : string :=
  if empty (defaultVal o) then "" else " (default: " +:+ defaultVal o +:+ ")".

(** The line printed for one option. *)
Definition option_line (o : OptPar) : string :=
  spaces (20 - String.length (optName o)) +:+ optName o
  +:+ ": " +:+ helpMessage o +:+ default_clause o +:+ endl.

(** The inline value read from sub-match [n], if it matched. *)
Definition inline_value (sm : smatch) (n : nat) : option string :=
  if matched sm n then Some (str sm n) else None.

(** The registered option a token designates: position and descriptor. *)
Definition resolve (opts : list OptPar) (tok : string) : option (nat * OptPar) :=
  match regex_match tok optRegex_ with
  | Some sm =>
      if matched sm 1 then find_if (λ p, bool_decide (shortName p = str sm 2)) opts
      else if matched sm 4 then find_if (λ p, bool_decide (longName p = str sm 5)) opts
      else None
  | None => None
  end.

(** The inline value of an option token. *)
Definition inline (tok : string) : option string :=
  match regex_match tok optRegex_ with
  | Some sm =>
      if matched sm 1 then inline_value sm 3
      else if matched sm 4 then inline_value sm 6
      else None
  | None => None
  end.

(** The token has one of the two shapes of an option. *)
Definition is_option (tok : string) : bool :=
  match regex_match tok optRegex_ with Some _ => true | None => false end.

(** Option [i] has been marked present. *)
Definition is_present (st : frame) (i : nat) : Prop :=
  present <$> result_ (this st) !! i = Some true.

(** The shapes of a token that [optRegex] cannot match: no leading dash,
    a dash alone, a dash followed by a character that is neither a letter
    nor a dash, two dashes not followed by a name character. *)
Definition plain_shape (tok : string) : bool :=
  match tok with
  | String c0 (String c rest) =>
      negb (bool_decide (c0 = "-"%char))
      || (negb (atom_match letters c) && negb (bool_decide (c = "-"%char)))
      || (bool_decide (c = "-"%char) && negb (head_is (atom_match name_chars) rest))
  | _ => true
  end.

(** What [=?(.+)?] captures on the text [r] that follows a long name. *)
Definition long_inline (r : string) : option string :=
  match r with
  | "" => None
  | String c v =>
      if bool_decide (c = "="%char) then (if empty v then None else Some v)
      else Some r
  end.

(** * Properties *)

(** ** The embedding on the examples of the specification *)

Example regex_short_inline :
  regex_match "-ofoo" optRegex_
  = Some [Some "-ofoo"; Some "-ofoo"; Some "o"; Some "foo"; None; None; None].
Proof. reflexivity. Qed.

Example regex_long_inline :
  regex_match "--output=foo" optRegex_
  = Some [Some "--output=foo"; None; None; None; Some "--output=foo"; Some "output"; Some "foo"].
Proof. reflexivity. Qed.

Example regex_long_bare :
  regex_match "--output" optRegex_
  = Some [Some "--output"; None; None; None; Some "--output"; Some "output"; None].
Proof. reflexivity. Qed.

Example regex_plain :
  regex_match "-" optRegex_ = None ∧ regex_match "--" optRegex_ = None
  ∧ regex_match "foo" optRegex_ = None ∧ regex_match "-1" optRegex_ = None.
Proof. repeat split; reflexivity. Qed.

Example test_registry_ok : test_registry = inr test_opt.
Proof. reflexivity. Qed.

Example parse_inline_and_positional :
  parse ["prog"; "-afoo"; "positional1"] test_opt
  = {| this := {| opt_ := [opt_a; opt_b];
                  result_ := [{| value := "foo"; present := true |};
                              {| value := ""; present := false |}];
                  arg_ := ["positional1"] |};
       expectVal := -1; isCorrect := false;
       cerr := [MissingMandatoryOption "-b/--long-b"] |}.
Proof. reflexivity. Qed.

Example parse_no_argument :
  parse ["prog"] {| opt_ := [{| shortName := "a"; longName := ""; defaultVal := "1";
                                helpMessage := ""; type := OptType.value; optional := true |}];
                    result_ := []; arg_ := [] |}
  = {| this := {| opt_ := [{| shortName := "a"; longName := ""; defaultVal := "1";
                              helpMessage := ""; type := OptType.value; optional := true |}];
                  result_ := [{| value := "1"; present := false |}];
                  arg_ := [] |};
       expectVal := -1; isCorrect := true; cerr := [] |}.
Proof. reflexivity. Qed.

(** ** The matcher on the two shapes of [optRegex] *)

Section regex_facts.

Implicit Types (s : string) (sm : smatch) (k : string → smatch → option smatch).

Lemma consumed_nil s : consumed s s = "".
Proof. unfold consumed. rewrite Nat.sub_diag. by destruct s. Qed.

Lemma consumed_cons c s s' :
  (String.length s' ≤ String.length s)%nat →
  consumed (String c s) s' = String c (consumed s s').
Proof.
  intros Hle. unfold consumed. cbn [String.length].
  replace (S (String.length s) - String.length s')%nat
    with (S (String.length s - String.length s')) by lia.
  reflexivity.
Qed.

Lemma app_cons c s1 s2 : String c s1 +:+ s2 = String c (s1 +:+ s2).
Proof. reflexivity. Qed.

Lemma length_app s1 s2 :
  String.length (s1 +:+ s2) = (String.length s1 + String.length s2)%nat.
Proof. induction s1 as [|c s1 IH]; [done|]. rewrite app_cons. simpl. by f_equal. Qed.

Lemma append_nil_r s : s +:+ "" = s.
Proof. induction s as [|c s IH]; [done|]. by rewrite app_cons, IH. Qed.

Lemma append_assoc s1 s2 s3 : (s1 +:+ s2) +:+ s3 = s1 +:+ s2 +:+ s3.
Proof. induction s1 as [|c s1 IH]; [done|]. by rewrite !app_cons, IH. Qed.

Lemma empty_cons c s : empty (String c s) = false.
Proof. reflexivity. Qed.

Lemma empty_false s : s ≠ "" → empty s = false.
Proof. intros Hs. by apply bool_decide_eq_false_2. Qed.

Lemma consumed_app s1 s2 : consumed (s1 +:+ s2) s2 = s1.
Proof.
  induction s1 as [|c s1 IH]; [apply consumed_nil|]. rewrite app_cons.
  rewrite consumed_cons; [by rewrite IH|]. rewrite length_app. lia.
Qed.

Lemma consumed_end s : consumed s "" = s.
Proof.
  unfold consumed. cbn [String.length]. rewrite Nat.sub_0_r.
  induction s as [|c s IH]; cbn; [done|]. by rewrite IH.
Qed.

Lemma span_app f s : (span f s).1 +:+ (span f s).2 = s.
Proof.
  induction s as [|c s IH]; cbn [span]; [done|].
  destruct (f c); cbn [fst snd]; [by rewrite app_cons, IH|done].
Qed.

Lemma span_fst_empty f s : (span f s).1 = "" → (span f s).2 = s.
Proof. intros Hn. pose proof (span_app f s) as Happ. rewrite Hn in Happ. exact Happ. Qed.

Lemma span_all f s : str_all f (span f s).1 = true.
Proof. induction s as [|c s IH]; cbn; [done|]. destruct (f c) eqn:E; cbn; [by rewrite E|done]. Qed.

Lemma span_maximal f s : head_is f (span f s).2 = false.
Proof. induction s as [|c s IH]; cbn; [done|]. destruct (f c) eqn:E; cbn; done. Qed.

Lemma consumed_span f s : consumed s (span f s).2 = (span f s).1.
Proof.
  transitivity (consumed ((span f s).1 +:+ (span f s).2) (span f s).2);
    [by rewrite span_app|apply consumed_app].
Qed.

Lemma str_all_app f s1 s2 : str_all f (s1 +:+ s2) = str_all f s1 && str_all f s2.
Proof.
  induction s1 as [|c s1 IH]; [done|].
  rewrite app_cons. cbn [str_all]. by rewrite IH, andb_assoc.
Qed.

(** [a+] followed by the end of the token: all of the rest, or nothing. *)
Lemma plus_greedy_at_end a s sm k f :
  at_end k f →
  plus_greedy a s sm k
  = if negb (empty s) && str_all (atom_match a) s then Some (f sm) else None.
Proof.
  intros Hk. induction s as [|c s IH]; [done|].
  cbn [plus_greedy str_all]. destruct (atom_match a c); [|done].
  rewrite IH, (Hk s). cbn. destruct s as [|c' s]; [done|].
  cbn. by destruct (_ && _).
Qed.

(** [(.+)?] in the last position, [n] being the number of its group. *)
Lemma run_opt_group_any n s sm k f :
  at_end k f →
  run (Opt (Group n (Plus Any))) s sm k
  = if empty s then Some (f sm)
    else if str_all (atom_match Any) s then Some (f (<[n := Some s]> sm))
    else None.
Proof.
  intros Hk. cbn [run].
  rewrite (plus_greedy_at_end Any s sm _ (λ sm', f (<[n := Some s]> sm'))).
  - rewrite (Hk s). unfold empty. destruct s as [|c s]; [done|].
    cbn [negb andb bool_decide]. rewrite !bool_decide_eq_false_2 by done. cbn.
    by destruct (_ && _).
  - intros s' sm'. rewrite (Hk s'). case_bool_decide as Hs; [|done].
    subst s'. by rewrite consumed_end.
Qed.

(** [[a-zA-Z_-]+] in front of a continuation that succeeds exactly on the
    texts free of line terminators: backtracking never shortens the name. *)
Lemma plus_greedy_name s sm k :
  (∀ s' sm', str_all (atom_match Any) s' = false → k s' sm' = None) →
  (∀ s' sm', str_all (atom_match Any) s' = true → is_Some (k s' sm')) →
  plus_greedy name_chars s sm k
  = if empty (span (atom_match name_chars) s).1 then None
    else k (span (atom_match name_chars) s).2 sm.
Proof.
  intros Hnone Hsome. induction s as [|c s IH]; [done|].
  cbn [plus_greedy span]. destruct (atom_match name_chars c) eqn:Hc; [|done].
  cbn [fst snd]. unfold empty at 1. rewrite bool_decide_eq_false_2 by done.
  rewrite IH. destruct (empty (span (atom_match name_chars) s).1) eqn:Hn.
  - apply bool_decide_eq_true_1, span_fst_empty in Hn. by rewrite Hn.
  - destruct (k (span (atom_match name_chars) s).2 sm) eqn:Hk; [done|].
    rewrite Hnone; [done|].
    destruct (str_all (atom_match Any) (span (atom_match name_chars) s).2) eqn:Hr.
    + destruct (Hsome _ sm Hr) as [? ?]; congruence.
    + rewrite <-(span_app (atom_match name_chars) s), str_all_app, Hr.
      apply andb_false_r.
Qed.

End regex_facts.

(** ** Closed form of [regex_match] on [optRegex_] *)

Lemma run_trailing_re n s sm k f :
  at_end k f →
  run (trailing_re n) s sm k
  = match trailing s with
    | Some v => Some (f (with_capture n v sm))
    | None => None
    end.
Proof.
  intros Hk. unfold trailing_re. rewrite (run_opt_group_any n s sm k f Hk).
  unfold trailing. destruct (empty s); [done|]. by destruct (str_all _ s).
Qed.

Lemma trailing_after_equals s :
  trailing (after_equals s) = None ↔ str_all (atom_match Any) s = false.
Proof.
  destruct s as [|c v]; [done|]. cbn [after_equals str_all].
  case_bool_decide as Hc.
  - subst c. cbn [atom_match is_line_terminator]. unfold trailing, empty.
    destruct v as [|c' v']; [done|]. rewrite bool_decide_eq_false_2 by done.
    cbn [orb negb andb]. by destruct (str_all _ _).
  - unfold trailing, empty. rewrite bool_decide_eq_false_2 by done.
    cbn [str_all]. by destruct (_ && _).
Qed.

Lemma run_tail_re s sm k f :
  at_end k f →
  run tail_re s sm k
  = match trailing (after_equals s) with
    | Some v => Some (f (with_capture 6 v sm))
    | None => None
    end.
Proof.
  intros Hk. unfold tail_re. cbn [run].
  destruct s as [|c v].
  - by rewrite (run_trailing_re 6 "" sm k f Hk).
  - cbn [atom_match after_equals]. case_bool_decide as Hc.
    + rewrite (run_trailing_re 6 v sm k f Hk).
      destruct (trailing v) as [w|] eqn:Hv; [done|].
      rewrite (run_trailing_re 6 (String c v) sm k f Hk).
      assert (trailing (String c v) = None) as ->; [|done].
      unfold trailing, empty in *. rewrite bool_decide_eq_false_2 by done.
      cbn [str_all]. destruct (bool_decide (v = "")); [done|].
      destruct (str_all (atom_match Any) v); [done|]. by rewrite andb_false_r.
    + by rewrite (run_trailing_re 6 (String c v) sm k f Hk).
Qed.

Lemma run_short_form tok :
  run (Group 1 (Cat (Atom (Chr "-")) (Cat (Group 2 (Atom letters)) (trailing_re 3))))
    tok (replicate 7 None) (accept tok)
  = short_form tok.
Proof.
  cbn [run]. destruct tok as [|c0 [|c rest]]; [done| |].
  - cbn. by destruct (bool_decide _).
  - cbn [short_form atom_match]. destruct (bool_decide (c0 = "-"%char)); [|done].
    cbn [andb]. destruct (atom_match letters c); [|done].
    rewrite (run_trailing_re 3 rest _ _
               (λ sm, <[0%nat := Some (String c0 (String c rest))]>
                        (<[1%nat := Some (String c0 (String c rest))]> sm))).
    + rewrite consumed_cons, consumed_nil by done.
      by destruct (trailing rest) as [[v|]|].
    + intros s' sm'. unfold accept. case_bool_decide as Hs; [|done].
      subst s'. by rewrite consumed_end.
Qed.

Lemma run_long_form tok :
  run (Group 4 (Cat (Atom (Chr "-")) (Cat (Atom (Chr "-"))
         (Cat (Group 5 (Plus name_chars)) tail_re))))
    tok (replicate 7 None) (accept tok)
  = long_form tok.
Proof.
  cbn [run]. destruct tok as [|c0 [|c1 s]]; [done| |].
  - cbn. by destruct (bool_decide _).
  - cbn [long_form atom_match]. destruct (bool_decide (c0 = "-"%char)); [|done].
    destruct (bool_decide (c1 = "-"%char)); [|done]. cbn [andb].
    set (tok := String c0 (String c1 s)).
    assert (at_end (λ s' sm', accept tok s' (<[4%nat := Some (consumed tok s')]> sm'))
              (λ sm, <[0%nat := Some tok]> (<[4%nat := Some tok]> sm))) as Hk.
    { intros s' sm'. unfold accept. case_bool_decide as Hs; [|done].
      subst s'. by rewrite consumed_end. }
    rewrite plus_greedy_name.
    + destruct (empty _); [done|].
      rewrite (run_tail_re _ _ _ _ Hk).
      rewrite consumed_span.
      by destruct (trailing _) as [[v|]|].
    + intros s' sm' Hs'. rewrite (run_tail_re _ _ _ _ Hk).
      apply trailing_after_equals in Hs'. by rewrite Hs'.
    + intros s' sm' Hs'. rewrite (run_tail_re _ _ _ _ Hk).
      destruct (trailing (after_equals s')) eqn:Ht; [done|].
      apply trailing_after_equals in Ht. congruence.
Qed.

Lemma regex_match_closed tok :
  regex_match tok optRegex_
  = match short_form tok with Some sm => Some sm | None => long_form tok end.
Proof.
  unfold regex_match, optRegex_.
  change (Opt (Group 3 (Plus Any))) with (trailing_re 3).
  change (Cat (Opt (Atom (Chr "="))) (Opt (Group 6 (Plus Any)))) with tail_re.
  change (λ s' sm', if bool_decide (s' = "") then Some (<[0%nat := Some tok]> sm') else None)
    with (accept tok).
  change (run (Alt ?r1 ?r2) ?s ?sm ?k)
    with (match run r1 s sm k with Some res => Some res | None => run r2 s sm k end).
  cbn [mark_count Nat.add].
  by rewrite run_short_form, run_long_form.
Qed.

(** The two shapes exclude each other. *)
Lemma short_long_exclusive tok sm : short_form tok = Some sm → long_form tok = None.
Proof.
  destruct tok as [|c0 [|c rest]]; [done..|]. cbn [short_form long_form].
  destruct (bool_decide (c0 = "-"%char)); [|done]. cbn [andb].
  case_bool_decide as Hc; [|done]. subst c. by vm_compute.
Qed.

(** ** The registry *)

Section registry_facts.

Implicit Types (self : OptParser) (par p q : OptPar) (pars : list OptPar).

Lemma par_eta par :
  {| shortName := shortName par; longName := longName par; defaultVal := defaultVal par;
     helpMessage := helpMessage par; type := type par; optional := optional par |} = par.
Proof. by destruct par. Qed.

Lemma collides_share_name par p : collides par p = share_name par p.
Proof.
  unfold collides, share_name, empty. cbn [orb].
  by rewrite !bool_decide_not.
Qed.

Lemma share_name_sym p q : share_name p q = share_name q p.
Proof.
  unfold share_name.
  destruct (decide (shortName p = shortName q)) as [Hs|Hs];
    destruct (decide (longName p = longName q)) as [Hl|Hl].
  - by rewrite Hs, Hl.
  - rewrite Hs. f_equal. rewrite !(bool_decide_eq_false_2 (longName _ = longName _)); done.
  - rewrite Hl. f_equal. rewrite !(bool_decide_eq_false_2 (shortName _ = shortName _)); done.
  - rewrite !(bool_decide_eq_false_2 (longName _ = longName _)) by done.
    rewrite !(bool_decide_eq_false_2 (shortName _ = shortName _)); done.
Qed.

Lemma find_if_Some {A} (f : A → bool) (l : list A) i x :
  find_if f l = Some (i, x)
  ↔ l !! i = Some x ∧ f x = true ∧ ∀ j y, l !! j = Some y → (j < i)%nat → f y = false.
Proof.
  unfold find_if. rewrite list_find_Some. do 2 (apply and_iff_compat_l).
  split; intros H j y Hj Hlt; specialize (H j y Hj Hlt); by destruct (f y).
Qed.

Lemma find_if_None {A} (f : A → bool) (l : list A) :
  find_if f l = None ↔ ∀ x, x ∈ l → f x = false.
Proof.
  unfold find_if. rewrite list_find_None, Forall_forall.
  split; intros H x Hx; specialize (H x Hx); destruct (f x); naive_solver.
Qed.

Lemma find_if_elem {A} (f : A → bool) (l : list A) x :
  x ∈ l → f x = true → ∃ i y, find_if f l = Some (i, y) ∧ f y = true.
Proof.
  intros Hx Hf. destruct (find_if f l) as [[i y]|] eqn:E.
  - exists i, y. split; [done|]. by apply find_if_Some in E as (_ & ? & _).
  - rewrite find_if_None in E. specialize (E x Hx). congruence.
Qed.

Lemma add_ok par self :
  (∀ p, p ∈ opt_ self → share_name par p = false) →
  add par self
  = inr {| opt_ := opt_ self ++ [par]; result_ := result_ self; arg_ := arg_ self |}.
Proof.
  intros Hfree. unfold add, addOption. rewrite par_eta.
  assert (find_if (collides par) (opt_ self) = None) as ->; [|done].
  apply find_if_None. intros p Hp. rewrite collides_share_name. by apply Hfree.
Qed.

Lemma distinct_names_snoc pars par :
  distinct_names (pars ++ [par])
  = distinct_names pars && forallb (λ p, negb (share_name par p)) pars.
Proof.
  induction pars as [|p pars IH]; cbn [distinct_names app forallb]; [done|].
  rewrite IH, forallb_app. cbn [forallb]. rewrite (share_name_sym p par).
  generalize (forallb (λ q, negb (share_name p q)) pars),
    (forallb (λ p0, negb (share_name par p0)) pars).
  intros b1 b2. by destruct (share_name par p), b1, b2, (distinct_names pars).
Qed.

Lemma distinct_names_app_cons l par pars :
  distinct_names (l ++ par :: pars) = true →
  ∀ p, p ∈ l → share_name par p = false.
Proof.
  induction l as [|q l IH]; cbn [app distinct_names]; intros Hd p Hp.
  - by apply elem_of_nil in Hp.
  - apply andb_true_iff in Hd as [Hq Hd].
    apply elem_of_cons in Hp as [->|Hp]; [|by apply IH].
    rewrite forallb_forall in Hq. specialize (Hq par).
    rewrite share_name_sym. apply negb_true_iff, Hq, list_elem_of_In.
    apply elem_of_app. right. by left.
Qed.

Lemma register_all_ok pars self :
  distinct_names (opt_ self ++ pars) = true →
  register_all pars self
  = inr {| opt_ := opt_ self ++ pars; result_ := result_ self; arg_ := arg_ self |}.
Proof.
  revert self. induction pars as [|par pars IH]; intros self Hd.
  - cbn. rewrite app_nil_r. by destruct self.
  - cbn [register_all]. rewrite add_ok by eauto using distinct_names_app_cons.
    rewrite IH; cbn [opt_ result_ arg_]; by rewrite <-app_assoc.
Qed.

End registry_facts.

(** ** The parse loop *)

Ltac frame_simpl :=
  cbn [this expectVal isCorrect cerr opt_ result_ arg_ set_present set_value push_arg] in *.

Ltac step_cases :=
  unfold parse_step, option_branch;
  repeat (frame_simpl; first
    [ case_bool_decide
    | match goal with
      | |- context [match regex_match ?t ?r with _ => _ end] =>
          destruct (regex_match t r) as [?sm|] eqn:?
      | |- context [if matched ?sm ?n then _ else _] =>
          destruct (matched sm n) eqn:?
      | |- context [match find_if ?f ?l with _ => _ end] =>
          destruct (find_if f l) as [[?i ?it]|] eqn:?
      end ]);
  frame_simpl.

Section parse_facts.

Implicit Types (self : OptParser) (st : frame) (tok front : string) (arg : list string).

Lemma parse_step_opt front st : opt_ (this (parse_step front st)) = opt_ (this st).
Proof. step_cases; done. Qed.

Lemma parse_loop_opt arg st : opt_ (this (parse_loop arg st)) = opt_ (this st).
Proof.
  revert st. induction arg as [|front arg IH]; intros st; [done|].
  cbn [parse_loop]. by rewrite IH, parse_step_opt.
Qed.

Lemma parse_pending_this st : this (parse_pending st) = this st.
Proof. unfold parse_pending. by case_bool_decide. Qed.

Lemma mandatory_fold_this st l : this (foldl mandatory_step st l) = this st.
Proof.
  revert st. induction l as [|x l IH]; intros st; [done|].
  cbn [foldl]. rewrite IH. unfold mandatory_step. by destruct (_ && _).
Qed.

Lemma parse_mandatory_this st : this (parse_mandatory st) = this st.
Proof. apply mandatory_fold_this. Qed.

Lemma parse_this argv self :
  this (parse argv self) = this (parse_loop (drop 1 argv) (parse_init self)).
Proof. unfold parse. by rewrite parse_mandatory_this, parse_pending_this. Qed.

Lemma parse_opt argv self : opt_ (this (parse argv self)) = opt_ self.
Proof. by rewrite parse_this, parse_loop_opt. Qed.

Lemma parse_init_ok self : frame_ok (parse_init self).
Proof.
  unfold frame_ok, parse_init. cbn. rewrite length_fmap. lia.
Qed.

Lemma parse_step_ok front st : frame_ok st → frame_ok (parse_step front st).
Proof.
  unfold frame_ok. intros [Hlen Hexp].
  step_cases; rewrite ?length_alter; try (split; [done|lia]).
  all: match goal with
       | H : find_if _ _ = Some _ |- _ =>
           apply find_if_Some in H as (?%lookup_lt_Some & _)
       end; split; [done|lia].
Qed.

(** Every vector access of the loop is in range. *)
Lemma parse_loop_inv arg st : frame_ok st → frame_ok (parse_loop arg st).
Proof.
  revert st. induction arg as [|front arg IH]; intros st Hok; [done|].
  cbn [parse_loop]. by apply IH, parse_step_ok.
Qed.

Lemma parse_result_length argv self :
  length (result_ (this (parse argv self))) = length (opt_ (this (parse argv self))).
Proof. rewrite parse_this. apply parse_loop_inv, parse_init_ok. Qed.

(** The result is [false] exactly when a line other than an
    unknown-option warning has been written. *)
Lemma parse_step_correct front st :
  isCorrect st = forallb benign (cerr st) →
  isCorrect (parse_step front st) = forallb benign (cerr (parse_step front st)).
Proof.
  intros Hc. step_cases; rewrite ?forallb_app; cbn [forallb benign];
    rewrite ?andb_true_r, ?andb_false_r; done.
Qed.

Lemma parse_loop_correct arg st :
  isCorrect st = forallb benign (cerr st) →
  isCorrect (parse_loop arg st) = forallb benign (cerr (parse_loop arg st)).
Proof.
  revert st. induction arg as [|front arg IH]; intros st Hc; [done|].
  cbn [parse_loop]. by apply IH, parse_step_correct.
Qed.

Lemma parse_pending_correct st :
  isCorrect st = forallb benign (cerr st) →
  isCorrect (parse_pending st) = forallb benign (cerr (parse_pending st)).
Proof.
  intros Hc. unfold parse_pending. case_bool_decide; [|done].
  cbn. by rewrite forallb_app, andb_false_r.
Qed.

Lemma mandatory_fold_correct st l :
  isCorrect st = forallb benign (cerr st) →
  isCorrect (foldl mandatory_step st l)
  = forallb benign (cerr (foldl mandatory_step st l)).
Proof.
  revert st. induction l as [|x l IH]; intros st Hc; [done|].
  cbn [foldl]. apply IH. unfold mandatory_step. destruct (_ && _); [|done].
  cbn. by rewrite forallb_app, andb_false_r.
Qed.

Lemma parse_correct argv self :
  isCorrect (parse argv self) = forallb benign (cerr (parse argv self)).
Proof.
  unfold parse, parse_mandatory.
  by apply mandatory_fold_correct, parse_pending_correct, parse_loop_correct.
Qed.

(** [parse] reads nothing but the registry. *)
Lemma parse_init_ext self self' : opt_ self = opt_ self' → parse_init self = parse_init self'.
Proof. unfold parse_init. by intros ->. Qed.

Lemma parse_ext argv self self' : opt_ self = opt_ self' → parse argv self = parse argv self'.
Proof. intros Heq. unfold parse. by rewrite (parse_init_ext _ _ Heq). Qed.

End parse_facts.

(** ** Reachable states keep the registry free of duplicates *)

Lemma addOption_inr s l t o h d self self' :
  addOption s l t o h d self = inr self' →
  let par := {| shortName := s; longName := l; defaultVal := d; helpMessage := h;
                type := t; optional := o |} in
  self' = {| opt_ := opt_ self ++ [par]; result_ := result_ self; arg_ := arg_ self |}
  ∧ ∀ p, p ∈ opt_ self → share_name par p = false.
Proof.
  unfold addOption. destruct (find_if _ _) as [[i it]|] eqn:Hfind; [done|].
  intros [= <-]. split; [done|]. intros p Hp.
  rewrite find_if_None in Hfind. by rewrite <-collides_share_name, Hfind.
Qed.

Lemma reachable_distinct self : reachable self → distinct_names (opt_ self) = true.
Proof.
  induction 1 as [|self s l t o h d self' _ IH Hadd|self argv _ IH]; [done| |].
  - apply addOption_inr in Hadd as [-> Hfree]. cbn [opt_].
    rewrite distinct_names_snoc, IH. cbn [andb].
    apply forallb_forall. intros p Hp%list_elem_of_In. by rewrite Hfree.
  - by rewrite parse_opt.
Qed.

Lemma distinct_names_lookup pars i j p q :
  distinct_names pars = true →
  pars !! i = Some p → pars !! j = Some q → share_name p q = true → i = j.
Proof.
  revert i j. induction pars as [|x pars IH]; intros i j Hd Hi Hj Hs; [done|].
  cbn [distinct_names] in Hd. apply andb_true_iff in Hd as [Hx Hd].
  rewrite forallb_forall in Hx.
  destruct i as [|i], j as [|j]; cbn in Hi, Hj.
  - done.
  - injection Hi as ->. apply list_elem_of_lookup_2, list_elem_of_In, Hx in Hj.
    by rewrite Hs in Hj.
  - injection Hj as ->. apply list_elem_of_lookup_2, list_elem_of_In, Hx in Hi.
    by rewrite share_name_sym, Hs in Hi.
  - f_equal. by apply IH.
Qed.

Lemma duplicate_name_eq it :
  duplicate_name it
  = (if empty (shortName it) then "" else "-" +:+ shortName it +:+ "/")
    +:+ (if empty (longName it) then "" else "--" +:+ longName it).
Proof.
  unfold duplicate_name.
  destruct (shortName it) as [|c s], (longName it) as [|c' l];
    try reflexivity.
  symmetry. exact (append_nil_r ("-" +:+ String c s +:+ "/")).
Qed.

Lemma test_opt_reachable : reachable test_opt.
Proof.
  apply (reachable_addOption {| opt_ := [opt_a]; result_ := []; arg_ := [] |}
           "b" "long-b" OptType.trigger false "option b" ""); [|reflexivity].
  apply (reachable_addOption new_parser "a" "long-a" OptType.value false "option a" "");
    [apply reachable_new|reflexivity].
Defined.

(** * The claims *)

(** ** Registration *)

(** C3 (as stated): every registration with both names empty is rejected.
    It is not: the first such registration on a fresh parser succeeds. *)
Lemma addOption_nameless_not_rejected :
  ¬ (∀ self t o h d, ∃ e, addOption "" "" t o h d self = inl e).
Proof.
  intros Hclaim.
  destruct (Hclaim new_parser OptType.trigger false "" "") as [e He].
  vm_compute in He. discriminate He.
Qed.

(** C3 (amended): a registration in which both [shortName] and [longName]
    are empty is never rejected, whatever the registry holds: the descriptor
    is appended like any other, the duplicate check looking only at
    non-empty names. *)
Theorem addOption_nameless_accepted self t o h d :
  addOption "" "" t o h d self
  = inr {| opt_ := opt_ self
                   ++ [{| shortName := ""; longName := ""; defaultVal := d;
                          helpMessage := h; type := t; optional := o |}];
           result_ := result_ self; arg_ := arg_ self |}.
Proof.
  unfold addOption.
  assert (find_if (collides {| shortName := ""; longName := ""; defaultVal := d;
                               helpMessage := h; type := t; optional := o |})
            (opt_ self) = None) as ->; [|done].
  apply find_if_None. intros p _. unfold collides, empty. cbn.
  by rewrite !andb_false_r.
Qed.

(** Registration without and with a conflict: registering descriptors no
    two of which share a non-empty short name or a non-empty long name
    never throws and leaves the registry equal to the list registered, in
    order; registering a descriptor that shares a non-empty name with a
    registered one throws at once a [logic_error] whose text is
    [duplicate option] followed by the name of the first registered option
    in conflict, [-short/--long] when it has both names. *)
Theorem addOption_distinct_or_duplicate (pars : list OptPar) (self : OptParser) (par : OptPar)
    (Hdistinct : distinct_names pars = true)
    (Hshared : ∃ q, q ∈ opt_ self ∧ share_name par q = true) :
  register_all pars new_parser = inr {| opt_ := pars; result_ := []; arg_ := [] |}
  ∧ ∃ i it,
      opt_ self !! i = Some it ∧ share_name par it = true
      ∧ (∀ j q, opt_ self !! j = Some q → (j < i)%nat → share_name par q = false)
      ∧ add par self = inl (logic_error ("duplicate option " +:+ duplicate_name it))
      ∧ duplicate_name it
        = (if empty (shortName it) then "" else "-" +:+ shortName it +:+ "/")
          +:+ (if empty (longName it) then "" else "--" +:+ longName it)
      ∧ (shortName it ≠ "" → longName it ≠ "" →
         duplicate_name it = "-" +:+ shortName it +:+ "/" +:+ "--" +:+ longName it).
Proof.
  split; [by apply (register_all_ok pars new_parser)|].
  destruct Hshared as (q & Hq & Hs).
  destruct (find_if_elem (collides par) (opt_ self) q Hq) as (i & it & Hfind & Hit).
  { by rewrite collides_share_name. }
  exists i, it. pose proof Hfind as (Hi & _ & Hfirst)%find_if_Some.
  rewrite collides_share_name in Hit.
  split_and!; [done|done| | | |].
  - intros j y Hj Hlt. rewrite <-collides_share_name. by eapply Hfirst.
  - unfold add, addOption. rewrite par_eta. by rewrite Hfind.
  - apply duplicate_name_eq.
  - intros Hs' Hl'. rewrite duplicate_name_eq, !empty_false by done.
    by rewrite !append_assoc.
Qed.

Lemma addOption_distinct_or_duplicate_witness :
  let par := {| shortName := "a"; longName := "other"; defaultVal := ""; helpMessage := "";
                type := OptType.trigger; optional := true |} in
  register_all [opt_a; opt_b] new_parser
  = inr {| opt_ := [opt_a; opt_b]; result_ := []; arg_ := [] |}
  ∧ ∃ i it,
      opt_ test_opt !! i = Some it ∧ share_name par it = true
      ∧ (∀ j q, opt_ test_opt !! j = Some q → (j < i)%nat → share_name par q = false)
      ∧ add par test_opt = inl (logic_error ("duplicate option " +:+ duplicate_name it))
      ∧ duplicate_name it
        = (if empty (shortName it) then "" else "-" +:+ shortName it +:+ "/")
          +:+ (if empty (longName it) then "" else "--" +:+ longName it)
      ∧ (shortName it ≠ "" → longName it ≠ "" →
         duplicate_name it = "-" +:+ shortName it +:+ "/" +:+ "--" +:+ longName it).
Proof.
  intros par. apply (addOption_distinct_or_duplicate [opt_a; opt_b] test_opt par).
  - reflexivity.
  - exists opt_a. split; [left|reflexivity].
Defined.

Example addOption_duplicate_message :
  addOption "a" "other" OptType.trigger true "" "" test_opt
  = inl (logic_error "duplicate option -a/--long-a").
Proof. reflexivity. Qed.

(** C4 (defect of the code): the error is thrown at once, but the option in
    conflict is not always named in the form [-short/--long]. [addOption]
    writes the slash as soon as the name built so far is not empty, that
    is, whenever the option in conflict has a short name: an option without
    long name is named [-s/], with a slash that separates nothing, where
    [optName] names the same option [-s], its slash being written only
    when a long name follows. *)
Theorem addOption_duplicate_dangling_slash (self : OptParser) (par it : OptPar) (i : nat)
    (Hit : opt_ self !! i = Some it)
    (Hshare : share_name par it = true)
    (Hfirst : ∀ j q, opt_ self !! j = Some q → (j < i)%nat → share_name par q = false)
    (Hshort : shortName it ≠ "")
    (Hlong : longName it = "") :
  add par self
  = inl (logic_error ("duplicate option " +:+ "-" +:+ shortName it +:+ "/"))
  ∧ duplicate_name it = "-" +:+ shortName it +:+ "/"
  ∧ name_form it = "-" +:+ shortName it
  ∧ optName it = "-" +:+ shortName it.
Proof.
  assert (duplicate_name it = "-" +:+ shortName it +:+ "/") as Hname.
  { rewrite duplicate_name_eq, Hlong, (empty_false _ Hshort).
    change (empty "") with true. cbn match. apply append_nil_r. }
  assert (find_if (collides par) (opt_ self) = Some (i, it)) as Hfind.
  { apply find_if_Some. split_and!; [done|by rewrite collides_share_name|].
    intros j q Hj Hlt. rewrite collides_share_name. by eapply Hfirst. }
  split_and!.
  - unfold add, addOption. by rewrite par_eta, Hfind, Hname.
  - done.
  - unfold name_form. rewrite Hlong, (empty_false _ Hshort).
    change (empty "") with true. rewrite orb_true_r. cbn match.
    by rewrite !append_nil_r.
  - unfold optName. rewrite Hlong, (empty_false _ Hshort).
    change (empty "") with true. by cbn.
Qed.

Lemma addOption_duplicate_dangling_slash_witness :
  let it := {| shortName := "x"; longName := ""; defaultVal := ""; helpMessage := "";
               type := OptType.trigger; optional := true |} in
  let self := {| opt_ := [it]; result_ := []; arg_ := [] |} in
  addOption "x" "" OptType.trigger true "" "" new_parser = inr self
  ∧ addOption "x" "y" OptType.trigger true "" "" self
    = inl (logic_error ("duplicate option " +:+ "-" +:+ "x" +:+ "/"))
  ∧ duplicate_name it = "-" +:+ "x" +:+ "/"
  ∧ name_form it = "-" +:+ "x"
  ∧ optName it = "-" +:+ "x".
Proof.
  intros it self. split; [reflexivity|].
  apply (addOption_duplicate_dangling_slash self
           {| shortName := "x"; longName := "y"; defaultVal := ""; helpMessage := "";
              type := OptType.trigger; optional := true |} it 0).
  - reflexivity.
  - reflexivity.
  - intros j q _ Hlt. lia.
  - discriminate.
  - reflexivity.
Defined.

(** The slash is written whenever the option in conflict has a short name. *)
Example addOption_duplicate_message_short_only :
  match addOption "x" "" OptType.trigger true "" "" new_parser with
  | inr self => addOption "x" "y" OptType.trigger true "" "" self
  | inl e => inl e
  end = inl (logic_error "duplicate option -x/").
Proof. reflexivity. Qed.

(** ** Queries *)

Lemma optIndex_Some name self i p :
  opt_ self !! i = Some p →
  shortName p = name ∨ longName p = name →
  (∀ j q, opt_ self !! j = Some q → (j < i)%nat → shortName q ≠ name ∧ longName q ≠ name) →
  optIndex name self = Z.of_nat i.
Proof.
  intros Hi Hp Hfirst. unfold optIndex.
  assert (find_if (λ p, bool_decide (shortName p = name) || bool_decide (longName p = name))
            (opt_ self) = Some (i, p)) as ->; [|done].
  apply find_if_Some. split_and!; [done| |].
  - destruct Hp as [Hp|Hp]; rewrite (bool_decide_eq_true_2 _ Hp); [done|apply orb_true_r].
  - intros j q Hj Hlt. destruct (Hfirst j q Hj Hlt) as [Hs Hl].
    by rewrite !bool_decide_eq_false_2.
Qed.

Lemma optIndex_None name self :
  (∀ p, p ∈ opt_ self → shortName p ≠ name ∧ longName p ≠ name) →
  optIndex name self = -1.
Proof.
  intros Hnone. unfold optIndex.
  assert (find_if (λ p, bool_decide (shortName p = name) || bool_decide (longName p = name))
            (opt_ self) = None) as ->; [|done].
  apply find_if_None. intros p Hp. destruct (Hnone p Hp) as [Hs Hl].
  by rewrite !bool_decide_eq_false_2.
Qed.

(** C7: [gotOption] and [optionValue] throw [runtime_error] (options not
    parsed) when [result_] and [opt_] differ in size; with equal sizes they
    throw [out_of_range] (no option with that name) when no registered
    option has [name] as short or long name, and otherwise return the
    presence flag, respectively the value, stored for the first option
    bearing that name. After [parse] the sizes are equal, so what is
    returned is what that call recorded. *)
Theorem query_results (name : string) (self : OptParser) :
  (length (result_ self) ≠ length (opt_ self) →
     gotOption name self = inl (runtime_error "options not parsed")
     ∧ optionValue name self = inl (runtime_error "options not parsed"))
  ∧ (length (result_ self) = length (opt_ self) →
     (∀ p, p ∈ opt_ self → shortName p ≠ name ∧ longName p ≠ name) →
     gotOption name self = inl (out_of_range ("no option with name '" +:+ name +:+ "'"))
     ∧ optionValue name self = inl (out_of_range ("no option with name '" +:+ name +:+ "'")))
  ∧ (length (result_ self) = length (opt_ self) →
     ∀ i p, opt_ self !! i = Some p →
       shortName p = name ∨ longName p = name →
       (∀ j q, opt_ self !! j = Some q → (j < i)%nat →
          shortName q ≠ name ∧ longName q ≠ name) →
       ∃ r, result_ self !! i = Some r
            ∧ gotOption name self = inr (present r)
            ∧ optionValue name self = inr (value r))
  ∧ (∀ argv self0, self = this (parse argv self0) →
     length (result_ self) = length (opt_ self)).
Proof.
  split_and!.
  - intros Hne. unfold gotOption, optionValue.
    by rewrite !(bool_decide_eq_false_2 (length _ = length _)) by done.
  - intros Heq Hnone. unfold gotOption, optionValue.
    rewrite (optIndex_None _ _ Hnone).
    by rewrite !(bool_decide_eq_true_2 (length _ = length _)) by done.
  - intros Heq i p Hi Hp Hfirst. unfold gotOption, optionValue.
    rewrite (optIndex_Some _ _ _ _ Hi Hp Hfirst).
    rewrite !(bool_decide_eq_true_2 (length _ = length _)) by done.
    rewrite !(bool_decide_eq_true_2 (0 ≤ _)) by lia.
    cbn [negb]. rewrite Nat2Z.id.
    destruct (lookup_lt_is_Some_2 (result_ self) i) as [r Hr].
    { rewrite Heq. by eapply lookup_lt_Some. }
    exists r. by rewrite (list_lookup_total_correct _ _ _ Hr).
  - intros argv self0 ->. apply parse_result_length.
Qed.

Lemma query_results_witness :
  let parsed := this (parse ["prog"; "-afoo"; "-b"] test_opt) in
  (gotOption "a" test_opt = inl (runtime_error "options not parsed")
   ∧ optionValue "a" test_opt = inl (runtime_error "options not parsed"))
  ∧ (gotOption "c" parsed = inl (out_of_range "no option with name 'c'")
     ∧ optionValue "c" parsed = inl (out_of_range "no option with name 'c'"))
  ∧ (∃ r, result_ parsed !! 0%nat = Some r
          ∧ gotOption "long-a" parsed = inr (present r)
          ∧ optionValue "long-a" parsed = inr (value r))
  ∧ length (result_ parsed) = length (opt_ parsed).
Proof.
  intros parsed.
  destruct (query_results "a" test_opt) as (Hsize & _).
  destruct (query_results "c" parsed) as (_ & Hname & _).
  destruct (query_results "long-a" parsed) as (_ & _ & Hfound & Hparsed).
  split; [|split; [|split]].
  - apply Hsize. vm_compute. lia.
  - apply Hname; [reflexivity|].
    intros p Hp. vm_compute in Hp.
    repeat (apply elem_of_cons in Hp as [->|Hp]; [by split|]).
    by apply elem_of_nil in Hp.
  - apply (Hfound eq_refl 0%nat opt_a).
    + reflexivity.
    + by right.
    + intros j q _ Hlt. lia.
  - by apply (Hparsed ["prog"; "-afoo"; "-b"] test_opt).
Defined.

Example query_after_parse :
  let parsed := this (parse ["prog"; "-afoo"; "-b"] test_opt) in
  gotOption "a" parsed = inr true ∧ optionValue "long-a" parsed = inr "foo"
  ∧ gotOption "b" parsed = inr true ∧ optionValue "b" parsed = inr "".
Proof. repeat split; reflexivity. Qed.

(** ** The result of [parse] *)

Lemma mandatory_fold_defaults opts st :
  foldl mandatory_step st (zip opts (defaults opts))
  = {| this := this st; expectVal := expectVal st;
       isCorrect := isCorrect st && forallb optional opts;
       cerr := cerr st
               ++ ((λ o, MissingMandatoryOption (optName o))
                     <$> filter (λ o, optional o = false) opts) |}.
Proof.
  revert st. induction opts as [|o opts IH]; intros st.
  - cbn. rewrite andb_true_r, app_nil_r. by destruct st.
  - cbn [defaults fmap list_fmap zip zip_with foldl]. unfold defaults in IH. rewrite IH.
    unfold mandatory_step. cbn [fst snd present forallb]. rewrite filter_cons.
    destruct (optional o); cbn [negb andb].
    + rewrite decide_False by done. done.
    + rewrite decide_True by done. cbn [this expectVal isCorrect cerr fmap list_fmap].
      by rewrite andb_false_r, <-app_assoc.
Qed.

(** C1 (as stated): [parse] returns [true] exactly when nothing was
    written to the error stream. It does not: on [-z], unknown to an empty
    registry, a warning is written and [true] is returned. *)
Lemma parse_unknown_option_returns_true :
  ¬ (∀ argv self, isCorrect (parse argv self) = true ↔ cerr (parse argv self) = []).
Proof.
  intros Hclaim. destruct (Hclaim ["prog"; "-z"] new_parser) as [Hnone _].
  specialize (Hnone eq_refl). vm_compute in Hnone. discriminate Hnone.
Qed.

Example parse_unknown_option_optional_registry :
  let self := {| opt_ := [{| shortName := "v"; longName := "verbose"; defaultVal := "";
                            helpMessage := ""; type := OptType.trigger; optional := true |}];
                 result_ := []; arg_ := [] |} in
  isCorrect (parse ["prog"; "-z"] self) = true
  ∧ cerr (parse ["prog"; "-z"] self) = [UnknownOption "-z"]
  ∧ arg_ (this (parse ["prog"; "-z"] self)) = [].
Proof. repeat split; reflexivity. Qed.

(** C1 (amended): [parse] returns [true] exactly when no missing-value and
    no missing-mandatory-option warning was written, unknown-option
    warnings leaving the result alone; parsing a single option token whose
    name is not registered writes an unknown-option warning for it, followed
    by one warning per mandatory option, adds nothing to the positional
    arguments, and returns [true] exactly when every registered option is
    optional. *)
Theorem parse_result_iff (argv : list string) (self : OptParser) :
  (isCorrect (parse argv self) = true
   ↔ ∀ w, w ∈ cerr (parse argv self) → ∃ t, w = UnknownOption t)
  ∧ ∀ (prog tok : string) (sm : smatch),
      regex_match tok optRegex_ = Some sm →
      unregistered (opt_ self) sm →
      cerr (parse [prog; tok] self)
      = UnknownOption tok
        :: ((λ o, MissingMandatoryOption (optName o))
              <$> filter (λ o, optional o = false) (opt_ self))
      ∧ arg_ (this (parse [prog; tok] self)) = []
      ∧ result_ (this (parse [prog; tok] self)) = defaults (opt_ self)
      ∧ isCorrect (parse [prog; tok] self) = forallb optional (opt_ self).
Proof.
  split.
  { rewrite parse_correct, forallb_forall. split.
    - intros Hall w Hw%list_elem_of_In. specialize (Hall w Hw).
      destruct w; try done. by eexists.
    - intros Hall w Hw%list_elem_of_In. by destruct (Hall w Hw) as [t ->]. }
  intros prog tok sm Hoption Hunknown.
  assert (parse_loop (drop 1 [prog; tok]) (parse_init self)
          = {| this := this (parse_init self); expectVal := -1; isCorrect := true;
               cerr := [UnknownOption tok] |}) as Hloop.
  { cbn [drop parse_loop]. unfold parse_step. rewrite Hoption.
    cbn [parse_init expectVal]. rewrite bool_decide_eq_false_2 by lia.
    unfold option_branch. cbn [this opt_].
    change (opt_ (this (parse_init self))) with (opt_ self).
    destruct Hunknown as [[H1 Hs]|(H1 & H4 & Hl)]; rewrite H1, ?H4.
    - assert (find_if (λ p, bool_decide (shortName p = str sm 2)) (opt_ self) = None) as ->;
        [|done].
      apply find_if_None. intros p Hp. by apply bool_decide_eq_false_2, Hs.
    - assert (find_if (λ p, bool_decide (longName p = str sm 5)) (opt_ self) = None) as ->;
        [|done].
      apply find_if_None. intros p Hp. by apply bool_decide_eq_false_2, Hl. }
  unfold parse. rewrite Hloop. unfold parse_pending. cbn [expectVal].
  rewrite bool_decide_eq_false_2 by lia.
  unfold parse_mandatory. cbn [this parse_init opt_ result_].
  change ((λ o, {| value := defaultVal o; present := false |}) <$> opt_ self)
    with (defaults (opt_ self)).
  by rewrite mandatory_fold_defaults.
Qed.

Lemma parse_result_iff_witness :
  regex_match "-z" optRegex_
  = Some [Some "-z"; Some "-z"; Some "z"; None; None; None; None]
  ∧ (isCorrect (parse ["prog"; "-a"; "-z"] test_opt) = true
     ↔ ∀ w, w ∈ cerr (parse ["prog"; "-a"; "-z"] test_opt) → ∃ t, w = UnknownOption t)
  ∧ cerr (parse ["prog"; "-z"] test_opt)
    = [UnknownOption "-z"; MissingMandatoryOption "-a/--long-a=";
       MissingMandatoryOption "-b/--long-b"]
  ∧ arg_ (this (parse ["prog"; "-z"] test_opt)) = []
  ∧ result_ (this (parse ["prog"; "-z"] test_opt)) = defaults (opt_ test_opt)
  ∧ isCorrect (parse ["prog"; "-z"] test_opt) = false.
Proof.
  split; [reflexivity|].
  destruct (parse_result_iff ["prog"; "-a"; "-z"] test_opt) as [Hiff Hsingle].
  split; [exact Hiff|].
  apply (Hsingle "prog" "-z" [Some "-z"; Some "-z"; Some "z"; None; None; None; None]).
  - reflexivity.
  - left. split; [reflexivity|]. intros p Hp. vm_compute in Hp.
    repeat (apply elem_of_cons in Hp as [->|Hp]; [done|]).
    by apply elem_of_nil in Hp.
Defined.

(** ** Printing the option list *)

Lemma optName_name_form o :
  optName o
  = name_form o
    +:+ (if bool_decide (type o = OptType.value) && negb (empty (longName o))
         then "=" else "").
Proof.
  unfold optName, name_form.
  destruct (shortName o) as [|c s], (longName o) as [|c' l], (type o);
    rewrite ?empty_cons; change (empty "") with true;
    cbn [negb orb andb bool_decide decide_rel]; rewrite ?append_nil_r;
    try reflexivity; change ("" +:+ ?x) with x; rewrite ?append_nil_r, ?append_assoc;
    try reflexivity.
Qed.

Lemma print_option_line out o : print_option out o = out +:+ option_line o.
Proof.
  unfold print_option, option_line, default_clause, setw.
  destruct (empty (defaultVal o)); cbn [negb]; by rewrite ?append_assoc.
Qed.

Lemma print_fold out opts :
  foldl print_option out opts = out +:+ foldr String.append "" (option_line <$> opts).
Proof.
  revert out. induction opts as [|o opts IH]; intros out; cbn [foldl fmap list_fmap foldr].
  - by rewrite append_nil_r.
  - by rewrite IH, print_option_line, append_assoc.
Qed.

(** C8 (as stated): the name form ends with [=] exactly when the option is
    a value option. It does not for a value option without long name. *)
Lemma optName_value_without_equals :
  ¬ (∀ o, type o = OptType.value ↔ ∃ s, optName o = s +:+ "=").
Proof.
  intros Hclaim.
  destruct (Hclaim {| shortName := "a"; longName := ""; defaultVal := ""; helpMessage := "";
                      type := OptType.value; optional := false |}) as [Hvalue _].
  destruct (Hvalue eq_refl) as [s Hs]. vm_compute in Hs.
  destruct s as [|c0 [|c1 [|c2 s]]]; discriminate Hs.
Qed.

Example print_value_without_long_name :
  print "" {| opt_ := [{| shortName := "a"; longName := ""; defaultVal := "1";
                          helpMessage := "option a"; type := OptType.value;
                          optional := false |}];
              result_ := []; arg_ := [] |}
  = "                  -a: option a (default: 1)" +:+ endl.
Proof. reflexivity. Qed.

Example print_test_registry :
  print "" test_opt
  = "        -a/--long-a=: option a" +:+ endl +:+ "         -b/--long-b: option b" +:+ endl.
Proof. reflexivity. Qed.

(** C8 (amended): the stream operator appends to the stream, for each
    registered option in registration order, one line made of the name form
    padded on the left with spaces up to 20 characters, [: ], the help
    text, the clause [ (default: d)] unless the default [d] is empty, and
    the end of line; the name form is [-s], [--long] or [-s/--long]
    according to the names present, followed by [=] exactly when the option
    is a value option with a long name. *)
Theorem print_format (out : string) (parser : OptParser) :
  print out parser = out +:+ foldr String.append "" (option_line <$> opt_ parser)
  ∧ ∀ o,
      option_line o
      = spaces (20 - String.length (optName o)) +:+ optName o +:+ ": " +:+ helpMessage o
        +:+ (if empty (defaultVal o) then "" else " (default: " +:+ defaultVal o +:+ ")")
        +:+ endl
      ∧ optName o
        = name_form o
          +:+ (if bool_decide (type o = OptType.value) && negb (empty (longName o))
               then "=" else "").
Proof.
  split; [apply print_fold|]. intros o. split; [done|apply optName_name_form].
Qed.

(** ** Token classification *)

Lemma span_all_id f s : str_all f s = true → span f s = (s, "").
Proof.
  induction s as [|c s IH]; [done|]. cbn [str_all span].
  intros [Hc Hs]%andb_true_iff. by rewrite Hc, (IH Hs).
Qed.

Lemma short_form_not_long tok sm : short_form tok = Some sm → matched sm 4 = false.
Proof.
  destruct tok as [|c0 [|c rest]]; [done..|]. cbn [short_form].
  destruct (_ && _); [|done]. destruct (trailing rest); [|done]. by intros [= <-].
Qed.

(** C2 (as stated): a long option has an inline value exactly when an [=]
    follows its name. It does not: [--foo@bar] carries no [=] and yields
    the inline value [@bar]. *)
Lemma long_inline_value_without_equals :
  ¬ (∀ tok sm, regex_match tok optRegex_ = Some sm → matched sm 4 = true →
       (matched sm 6 = true ↔ ∃ v, tok = "--" +:+ str sm 5 +:+ "=" +:+ v)).
Proof.
  intros Hclaim.
  destruct (Hclaim "--foo@bar"
              [Some "--foo@bar"; None; None; None; Some "--foo@bar"; Some "foo"; Some "@bar"]
              eq_refl eq_refl) as [Hequals _].
  destruct (Hequals eq_refl) as [v Hv]. vm_compute in Hv. discriminate Hv.
Qed.

(** An [=] with nothing behind it gives no inline value either. *)
Example long_equals_without_value :
  regex_match "--foo=" optRegex_
  = Some [Some "--foo="; None; None; None; Some "--foo="; Some "foo"; None].
Proof. reflexivity. Qed.

(** C2 (amended): in a token classified as a long option the name is the
    longest run of name characters after the leading [--]; an inline value
    is captured exactly when some text remains after the name and the [=]
    that may follow it, and it is that text: what follows [=] when [=]
    comes right after the name, all of the remainder otherwise. A bare
    [--name] is a long option without inline value. *)
Theorem long_option_shape (tok : string) (sm : smatch)
    (Hmatch : regex_match tok optRegex_ = Some sm)
    (Hlong : matched sm 4 = true) :
  (∃ rest,
     tok = "--" +:+ str sm 5 +:+ rest
     ∧ str sm 5 ≠ ""
     ∧ str_all (atom_match name_chars) (str sm 5) = true
     ∧ head_is (atom_match name_chars) rest = false
     ∧ inline_value sm 6
       = match rest with
         | "" => None
         | String c v =>
             if bool_decide (c = "="%char) then (if empty v then None else Some v)
             else Some rest
         end)
  ∧ matched sm 1 = false
  ∧ ∀ name, name ≠ "" → str_all (atom_match name_chars) name = true →
      regex_match ("--" +:+ name) optRegex_
      = Some [Some ("--" +:+ name); None; None; None; Some ("--" +:+ name); Some name; None].
Proof.
  split_and!.
  - rewrite regex_match_closed in Hmatch.
    destruct (short_form tok) as [sm'|] eqn:Hshort.
    { injection Hmatch as ->. apply short_form_not_long in Hshort. congruence. }
    destruct tok as [|c0 [|c1 s]]; [done..|]. cbn [long_form] in Hmatch.
    destruct (bool_decide (c0 = "-"%char)) eqn:H0; [|done].
    destruct (bool_decide (c1 = "-"%char)) eqn:H1; [|done].
    apply bool_decide_eq_true_1 in H0 as ->. apply bool_decide_eq_true_1 in H1 as ->.
    cbn [andb] in Hmatch.
    destruct (empty (span (atom_match name_chars) s).1) eqn:Hn; [done|].
    destruct (trailing (after_equals (span (atom_match name_chars) s).2)) as [v|] eqn:Hv;
      [|done].
    injection Hmatch as <-.
    exists (span (atom_match name_chars) s).2.
    change (str _ 5) with (span (atom_match name_chars) s).1.
    split_and!.
    + change ("--" +:+ ?x) with (String "-" (String "-" x)). by rewrite span_app.
    + by apply bool_decide_eq_false_1 in Hn.
    + apply span_all.
    + apply span_maximal.
    + unfold inline_value, trailing, after_equals in *.
      destruct (span (atom_match name_chars) s).2 as [|c r].
      { by injection Hv as <-. }
      destruct (bool_decide (c = "="%char)).
      * destruct (empty r); [by injection Hv as <-|].
        destruct (str_all _ r); [by injection Hv as <-|done].
      * rewrite empty_cons in Hv.
        destruct (str_all _ (String c r)); [by injection Hv as <-|done].
  - rewrite regex_match_closed in Hmatch.
    destruct (short_form tok) as [sm'|] eqn:Hshort.
    { injection Hmatch as ->. apply short_form_not_long in Hshort. congruence. }
    destruct tok as [|c0 [|c1 s]]; [done..|]. cbn [long_form] in Hmatch.
    destruct (_ && _); [|done]. destruct (empty _); [done|].
    destruct (trailing _); [|done]. by injection Hmatch as <-.
  - intros name Hname Hall. rewrite regex_match_closed.
    change ("--" +:+ name) with (String "-" (String "-" name)).
    cbn [short_form long_form].
    change (bool_decide ("-"%char = "-"%char) && atom_match letters "-") with false.
    change (bool_decide ("-"%char = "-"%char) && bool_decide ("-"%char = "-"%char)) with true.
    cbn match. rewrite (span_all_id _ _ Hall). cbn [fst snd].
    by rewrite (empty_false _ Hname).
Qed.

Lemma long_option_shape_witness :
  let sm := [Some "--output=foo"; None; None; None;
             Some "--output=foo"; Some "output"; Some "foo"] in
  regex_match "--output=foo" optRegex_ = Some sm
  ∧ (∃ rest,
       "--output=foo" = "--" +:+ str sm 5 +:+ rest
       ∧ str sm 5 ≠ ""
       ∧ str_all (atom_match name_chars) (str sm 5) = true
       ∧ head_is (atom_match name_chars) rest = false
       ∧ inline_value sm 6
         = match rest with
           | "" => None
           | String c v =>
               if bool_decide (c = "="%char) then (if empty v then None else Some v)
               else Some rest
           end)
  ∧ matched sm 1 = false
  ∧ regex_match ("--" +:+ "output") optRegex_
    = Some [Some ("--" +:+ "output"); None; None; None;
            Some ("--" +:+ "output"); Some "output"; None].
Proof.
  intros sm. split; [reflexivity|].
  destruct (long_option_shape "--output=foo" sm eq_refl eq_refl) as (Hshape & Hshort & Hbare).
  split; [exact Hshape|]. split; [exact Hshort|].
  apply (Hbare "output"); [discriminate|reflexivity].
Defined.

(** ** Value binding *)

Section binding_facts.

Implicit Types (self : OptParser) (st : frame) (tok : string) (o : OptPar) (i : nat).

Lemma find_short opts i o n :
  distinct_names opts = true → opts !! i = Some o → shortName o = n → n ≠ "" →
  find_if (λ p, bool_decide (shortName p = n)) opts = Some (i, o).
Proof.
  intros Hd Hi Hn Hne. apply find_if_Some. split_and!; [done|by apply bool_decide_eq_true_2|].
  intros j y Hj Hlt. apply bool_decide_eq_false_2. intros Hy.
  assert (j = i); [|lia]. apply (distinct_names_lookup opts j i y o Hd Hj Hi).
  unfold share_name. rewrite Hy, Hn.
  by rewrite !(bool_decide_eq_true_2 (n = n)), !(bool_decide_eq_true_2 (n ≠ "")) by done.
Qed.

Lemma find_long opts i o n :
  distinct_names opts = true → opts !! i = Some o → longName o = n → n ≠ "" →
  find_if (λ p, bool_decide (longName p = n)) opts = Some (i, o).
Proof.
  intros Hd Hi Hn Hne. apply find_if_Some. split_and!; [done|by apply bool_decide_eq_true_2|].
  intros j y Hj Hlt. apply bool_decide_eq_false_2. intros Hy.
  assert (j = i); [|lia]. apply (distinct_names_lookup opts j i y o Hd Hj Hi).
  unfold share_name. rewrite Hy, Hn.
  rewrite !(bool_decide_eq_true_2 (n = n)), !(bool_decide_eq_true_2 (n ≠ "")) by done.
  apply orb_true_r.
Qed.

(** A token that designates another option, or none, leaves option [i]
    alone as long as [i] is not the option awaiting its value; an option
    token does so even then. *)
Lemma parse_step_other tok st i :
  (∀ o, resolve (opt_ (this st)) tok ≠ Some (i, o)) →
  expectVal st ≠ Z.of_nat i ∨ is_option tok = true →
  result_ (this (parse_step tok st)) !! i = result_ (this st) !! i
  ∧ expectVal (parse_step tok st) ≠ Z.of_nat i.
Proof.
  intros Hres Hexp. unfold resolve in Hres. unfold is_option in Hexp.
  step_cases;
    try (destruct Hexp as [Hexp|Hexp]; [|discriminate Hexp]);
    repeat match goal with
           | H : regex_match _ _ = _ |- _ => rewrite H in Hres; clear H
           | H : matched _ _ = _ |- _ => rewrite ?H in Hres; clear H
           end;
    try match goal with
        | H : find_if _ _ = Some (?j, ?it) |- _ =>
            assert (j ≠ i) by (intros ->; by apply (Hres it))
        end;
    rewrite ?list_lookup_alter_ne by lia; split; (done || lia).
Qed.

(** A value option met without inline value is marked present, keeps its
    value and becomes the option awaiting a value. *)
Lemma parse_step_bare tok st i o r :
  resolve (opt_ (this st)) tok = Some (i, o) →
  type o = OptType.value →
  inline tok = None →
  result_ (this st) !! i = Some r →
  result_ (this (parse_step tok st)) !! i = Some {| value := value r; present := true |}
  ∧ expectVal (parse_step tok st) = Z.of_nat i
  ∧ (expectVal st < 0 → cerr (parse_step tok st) = cerr st).
Proof.
  intros Hres Hvalue Hinline Hr. unfold resolve, inline, inline_value in *.
  unfold parse_step, option_branch.
  destruct (regex_match tok optRegex_) as [sm|]; [|done].
  destruct (matched sm 1).
  - destruct (matched sm 3); [done|].
    case_bool_decide; frame_simpl; rewrite Hres; frame_simpl;
      rewrite (bool_decide_eq_true_2 _ Hvalue); frame_simpl;
      rewrite list_lookup_alter_eq, Hr; split_and!; (done || lia).
  - destruct (matched sm 4); [|done]. destruct (matched sm 6); [done|].
    case_bool_decide; frame_simpl; rewrite Hres; frame_simpl;
      rewrite (bool_decide_eq_true_2 _ Hvalue); frame_simpl;
      rewrite list_lookup_alter_eq, Hr; split_and!; (done || lia).
Qed.

(** The step on a token designating a registered option, no value being
    awaited. *)
Lemma parse_step_resolved tok st i o :
  resolve (opt_ (this st)) tok = Some (i, o) →
  expectVal st < 0 →
  parse_step tok st
  = if bool_decide (type o = OptType.value) then
      match inline tok with
      | Some v =>
          {| this := set_value i v (set_present i (this st)); expectVal := expectVal st;
             isCorrect := isCorrect st; cerr := cerr st |}
      | None =>
          {| this := set_present i (this st); expectVal := Z.of_nat i;
             isCorrect := isCorrect st; cerr := cerr st |}
      end
    else
      {| this := set_present i (this st); expectVal := expectVal st;
         isCorrect := isCorrect st; cerr := cerr st |}.
Proof.
  intros Hres Hexp. unfold resolve, inline, inline_value in *.
  unfold parse_step, option_branch.
  destruct (regex_match tok optRegex_) as [sm|]; [|done].
  rewrite bool_decide_eq_false_2 by lia.
  destruct (matched sm 1).
  - rewrite Hres. by destruct (matched sm 3).
  - destruct (matched sm 4); [|done]. rewrite Hres. by destruct (matched sm 6).
Qed.

(** The step on a token that is not an option while a value is awaited. *)
Lemma parse_step_value tok st :
  is_option tok = false →
  0 ≤ expectVal st →
  parse_step tok st
  = {| this := set_value (Z.to_nat (expectVal st)) tok (this st); expectVal := -1;
       isCorrect := isCorrect st; cerr := cerr st |}.
Proof.
  unfold is_option, parse_step. intros Hplain Hexp.
  destruct (regex_match tok optRegex_); [done|]. by rewrite bool_decide_eq_true_2.
Qed.




Lemma parse_loop_other arg st i :
  (∀ tok o, tok ∈ arg → resolve (opt_ (this st)) tok ≠ Some (i, o)) →
  expectVal st ≠ Z.of_nat i →
  result_ (this (parse_loop arg st)) !! i = result_ (this st) !! i
  ∧ expectVal (parse_loop arg st) ≠ Z.of_nat i.
Proof.
  revert st. induction arg as [|tok arg IH]; intros st Hres Hexp; [done|].
  cbn [parse_loop].
  destruct (parse_step_other tok st i) as [Hr He]; [|by left|].
  { intros o. apply Hres. by left. }
  destruct (IH (parse_step tok st)) as [Hr' He']; [|done|].
  { intros tok' o Hin. rewrite parse_step_opt. apply Hres. by right. }
  by rewrite Hr', Hr.
Qed.

Lemma parse_loop_app arg1 arg2 st :
  parse_loop (arg1 ++ arg2) st = parse_loop arg2 (parse_loop arg1 st).
Proof.
  revert st. induction arg1 as [|tok arg1 IH]; intros st; [done|]. cbn. apply IH.
Qed.

Lemma mandatory_fold_incorrect st l :
  isCorrect st = false → isCorrect (foldl mandatory_step st l) = false.
Proof.
  revert st. induction l as [|x l IH]; intros st Hc; [done|].
  cbn [foldl]. apply IH. unfold mandatory_step. by destruct (_ && _).
Qed.

Lemma mandatory_fold_cerr st l :
  ∃ ws, cerr (foldl mandatory_step st l) = cerr st ++ ws.
Proof.
  revert st. induction l as [|x l IH]; intros st.
  - exists []. by rewrite app_nil_r.
  - cbn [foldl]. destruct (IH (mandatory_step st x)) as [ws ->].
    unfold mandatory_step. destruct (_ && _); [|by eexists].
    cbn [cerr]. rewrite <-app_assoc. by eexists.
Qed.

End binding_facts.

Lemma regex_short_bare c :
  atom_match letters c = true →
  regex_match (String "-" (String c "")) optRegex_
  = Some [Some (String "-" (String c "")); Some (String "-" (String c ""));
          Some (String c ""); None; None; None; None].
Proof.
  intros Hc. rewrite regex_match_closed. cbn [short_form]. by rewrite Hc.
Qed.

Lemma resolve_short_bare opts c i o :
  distinct_names opts = true → atom_match letters c = true →
  opts !! i = Some o → shortName o = String c "" →
  resolve opts (String "-" (String c "")) = Some (i, o)
  ∧ inline (String "-" (String c "")) = None.
Proof.
  intros Hd Hc Hi Hn. unfold resolve, inline. rewrite (regex_short_bare c Hc).
  split; [|done]. by apply find_short.
Qed.

(** C6: when the registry holds a value option whose short name is the
    letter [c], parsing the single token [-c] ends the loop with that option
    awaited by [expectVal], writes the missing-value warning for it,
    returns [false] and leaves in the result store the option's default
    value (the option being marked present). *)
Theorem parse_missing_value (self : OptParser) (prog : string) (c : ascii)
    (i : nat) (o : OptPar)
    (Hreach : reachable self)
    (Hletter : atom_match letters c = true)
    (Hopt : opt_ self !! i = Some o)
    (Hname : shortName o = String c "")
    (Hvalue : type o = OptType.value) :
  let tok := String "-" (String c "") in
  expectVal (parse_loop [tok] (parse_init self)) = Z.of_nat i
  ∧ (∃ ws, cerr (parse [prog; tok] self) = MissingValue (optName o) None :: ws)
  ∧ isCorrect (parse [prog; tok] self) = false
  ∧ result_ (this (parse [prog; tok] self)) !! i
    = Some {| value := defaultVal o; present := true |}.
Proof.
  intros tok.
  destruct (resolve_short_bare (opt_ self) c i o) as [Hres Hinl];
    [by apply reachable_distinct|done..|].
  assert (result_ (this (parse_init self)) !! i
          = Some {| value := defaultVal o; present := false |}) as Hinit.
  { cbn. by rewrite list_lookup_fmap, Hopt. }
  destruct (parse_step_bare tok (parse_init self) i o _ Hres Hvalue Hinl Hinit)
    as (Hr & He & Hcerr).
  specialize (Hcerr ltac:(done)). change (cerr (parse_init self)) with (@nil warning) in Hcerr.
  assert (∃ ws, cerr (parse [prog; tok] self) = MissingValue (optName o) None :: ws)
    as [ws Hws].
  { unfold parse, parse_mandatory. cbn [drop parse_loop].
    edestruct mandatory_fold_cerr as [ws ->]. exists ws.
    unfold parse_pending. rewrite He, bool_decide_eq_true_2 by lia. cbn [cerr].
    rewrite Hcerr, Nat2Z.id, parse_step_opt. cbn [parse_init this opt_ app].
    by rewrite (list_lookup_total_correct _ _ _ Hopt). }
  split_and!.
  - done.
  - by exists ws.
  - by rewrite parse_correct, Hws.
  - by rewrite parse_this.
Qed.

Lemma parse_missing_value_witness :
  reachable test_opt
  ∧ expectVal (parse_loop ["-a"] (parse_init test_opt)) = 0
  ∧ (∃ ws, cerr (parse ["prog"; "-a"] test_opt) = MissingValue "-a/--long-a=" None :: ws)
  ∧ isCorrect (parse ["prog"; "-a"] test_opt) = false
  ∧ result_ (this (parse ["prog"; "-a"] test_opt)) !! 0%nat
    = Some {| value := ""; present := true |}.
Proof.
  split; [exact test_opt_reachable|].
  apply (parse_missing_value test_opt "prog" "a" 0 opt_a test_opt_reachable); reflexivity.
Defined.

(** C5: when the registry holds a value option of short name [a] and long
    name [long-a], parsing [--long-a=foo] and parsing [-a foo] leave the
    same result store; the whole outcome is the same: object, returned
    value and warnings. *)
Theorem parse_inline_deferred (self : OptParser) (prog prog' : string)
    (i : nat) (o : OptPar)
    (Hreach : reachable self)
    (Hopt : opt_ self !! i = Some o)
    (Hshort : shortName o = "a")
    (Hlong : longName o = "long-a")
    (Hvalue : type o = OptType.value) :
  result_ (this (parse [prog; "--long-a=foo"] self))
  = result_ (this (parse [prog'; "-a"; "foo"] self))
  ∧ parse [prog; "--long-a=foo"] self = parse [prog'; "-a"; "foo"] self
  ∧ result_ (this (parse [prog; "--long-a=foo"] self)) !! i
    = Some {| value := "foo"; present := true |}.
Proof.
  pose proof (reachable_distinct self Hreach) as Hd.
  assert (resolve (opt_ self) "--long-a=foo" = Some (i, o)) as Hinline.
  { by apply (find_long (opt_ self) i o "long-a"). }
  assert (resolve (opt_ self) "-a" = Some (i, o)) as Hbare.
  { by apply (find_short (opt_ self) i o "a"). }
  assert (parse_loop ["--long-a=foo"] (parse_init self)
          = {| this := set_value i "foo" (set_present i (this (parse_init self)));
               expectVal := -1; isCorrect := true; cerr := [] |}) as Hloop.
  { cbn [parse_loop]. rewrite (parse_step_resolved _ _ i o) by done.
    by rewrite (bool_decide_eq_true_2 _ Hvalue). }
  assert (parse_loop ["-a"; "foo"] (parse_init self)
          = {| this := set_value i "foo" (set_present i (this (parse_init self)));
               expectVal := -1; isCorrect := true; cerr := [] |}) as Hloop'.
  { cbn [parse_loop]. rewrite (parse_step_resolved "-a" _ i o) by done.
    rewrite (bool_decide_eq_true_2 _ Hvalue).
    change (inline "-a") with (@None string). cbn match.
    rewrite parse_step_value by (done || (cbn [expectVal]; lia)).
    cbn [this expectVal isCorrect cerr]. by rewrite Nat2Z.id. }
  assert (parse [prog; "--long-a=foo"] self = parse [prog'; "-a"; "foo"] self) as Heq.
  { unfold parse. cbn [drop]. by rewrite Hloop, Hloop'. }
  split_and!; [by rewrite Heq|done|].
  rewrite parse_this. cbn [drop]. rewrite Hloop. frame_simpl. cbn [parse_init this result_].
  by rewrite !list_lookup_alter_eq, list_lookup_fmap, Hopt.
Qed.

Lemma parse_inline_deferred_witness :
  reachable test_opt
  ∧ result_ (this (parse ["prog"; "--long-a=foo"] test_opt))
    = result_ (this (parse ["prog"; "-a"; "foo"] test_opt))
  ∧ parse ["prog"; "--long-a=foo"] test_opt = parse ["prog"; "-a"; "foo"] test_opt
  ∧ result_ (this (parse ["prog"; "--long-a=foo"] test_opt)) !! 0%nat
    = Some {| value := "foo"; present := true |}.
Proof.
  split; [exact test_opt_reachable|].
  apply (parse_inline_deferred test_opt "prog" "prog" 0 opt_a test_opt_reachable);
    reflexivity.
Defined.

Lemma resolve_lookup opts tok i o : resolve opts tok = Some (i, o) → opts !! i = Some o.
Proof.
  unfold resolve. intros Hres.
  repeat case_match; try done; by apply find_if_Some in Hres as (? & _).
Qed.


Lemma optIndex_ext name self self' :
  opt_ self = opt_ self' → optIndex name self = optIndex name self'.
Proof. unfold optIndex. by intros ->. Qed.

Lemma parse_step_present tok st i : is_present st i → is_present (parse_step tok st) i.
Proof.
  unfold is_present. intros Hp.
  step_cases; rewrite ?list_lookup_alter; repeat case_decide; subst;
    destruct (result_ (this st) !! _) as [[v p]|]; simplify_eq/=; done.
Qed.


Lemma parse_step_marks tok st i o :
  frame_ok st → resolve (opt_ (this st)) tok = Some (i, o) → is_present (parse_step tok st) i.
Proof.
  intros [Hlen _] Hres. pose proof (resolve_lookup _ _ _ _ Hres) as Hi%lookup_lt_Some.
  destruct (lookup_lt_is_Some_2 (result_ (this st)) i) as [r Hr]; [lia|].
  unfold resolve in Hres. unfold is_present, parse_step, option_branch.
  destruct (regex_match tok optRegex_) as [sm|]; [|done].
  destruct (matched sm 1); [|destruct (matched sm 4); [|done]].
  all: case_bool_decide; frame_simpl; rewrite Hres; repeat case_match; frame_simpl;
    rewrite ?list_lookup_alter_eq, Hr; done.
Qed.




(** A name borne by an earlier option in the other form hides the option
    from the queries: here [-a] marks the second option present, and the
    query by [a] answers for the first one, whose long name is [a]. *)
Example presence_query_hidden_by_earlier_name :
  let self := {| opt_ := [{| shortName := "x"; longName := "a"; defaultVal := "";
                            helpMessage := ""; type := OptType.trigger; optional := true |};
                          {| shortName := "a"; longName := "x"; defaultVal := "";
                             helpMessage := ""; type := OptType.value; optional := true |}];
                 result_ := []; arg_ := [] |} in
  reachable self
  ∧ present <$> result_ (this (parse ["prog"; "-a"] self)) !! 1%nat = Some true
  ∧ gotOption "a" (this (parse ["prog"; "-a"] self)) = inr false
  ∧ gotOption "x" (this (parse ["prog"; "-a"] self)) = inr false.
Proof.
  intros self. split; [|repeat split; reflexivity].
  apply (reachable_addOption
           {| opt_ := [{| shortName := "x"; longName := "a"; defaultVal := "";
                          helpMessage := ""; type := OptType.trigger; optional := true |}];
              result_ := []; arg_ := [] |}
           "a" "x" OptType.value true "" ""); [|reflexivity].
  apply (reachable_addOption new_parser "x" "a" OptType.trigger true "" "");
    [apply reachable_new|reflexivity].
Qed.

Example value_option_bound_later :
  let r := parse ["prog"; "-a"; "-afoo"] test_opt in
  gotOption "a" (this r) = inr true ∧ optionValue "a" (this r) = inr "foo"
  ∧ cerr r = [MissingValue "-a/--long-a=" (Some "-afoo"); MissingMandatoryOption "-b/--long-b"].
Proof. repeat split; reflexivity. Qed.

Example value_option_abandoned :
  let r := parse ["prog"; "-a"; "-b"] test_opt in
  gotOption "a" (this r) = inr true ∧ optionValue "a" (this r) = inr ""
  ∧ cerr r = [MissingValue "-a/--long-a=" (Some "-b")] ∧ isCorrect r = false.
Proof. repeat split; reflexivity. Qed.


(** * Further properties of the code *)

(** ** Token classification, continued *)

Lemma name_char_is_any c : atom_match name_chars c = true → atom_match Any c = true.
Proof.
  destruct c as [[] [] [] [] [] [] [] []]; vm_compute; congruence.
Qed.

Lemma str_all_name_any s :
  str_all (atom_match name_chars) s = true → str_all (atom_match Any) s = true.
Proof.
  induction s as [|c s IH]; [done|]. cbn [str_all].
  intros [Hc Hs]%andb_true_iff. by rewrite (name_char_is_any c Hc), IH.
Qed.

Lemma span_app_stop f n r :
  str_all f n = true → head_is f r = false → span f (n +:+ r) = (n, r).
Proof.
  intros Hn Hr. induction n as [|c n IH].
  - change (span f r = ("", r)). destruct r as [|c r]; [done|].
    cbn [span head_is] in *. by rewrite Hr.
  - rewrite app_cons. cbn [str_all span] in *.
    apply andb_true_iff in Hn as [Hc Hn]. by rewrite Hc, (IH Hn).
Qed.

Lemma long_form_not_short tok sm : long_form tok = Some sm → matched sm 1 = false.
Proof.
  destruct tok as [|c0 [|c1 s]]; [done..|]. cbn [long_form].
  destruct (_ && _); [|done]. destruct (empty _); [done|].
  destruct (trailing _); [|done]. by intros [= <-].
Qed.

Lemma trailing_Some s v :
  trailing s = Some v ↔
  str_all (atom_match Any) s = true ∧ v = if empty s then None else Some s.
Proof.
  unfold trailing. destruct s as [|c s].
  - split; [by intros [= <-]|by intros [_ ->]].
  - rewrite empty_cons. destruct (str_all _ _).
    + split; [by intros [= <-]|by intros [_ ->]].
    + split; [done|by intros [? _]].
Qed.

Lemma short_form_dashes s : short_form (String "-" (String "-" s)) = None.
Proof. reflexivity. Qed.

(** X1: a token is classified as a short option exactly when it is a dash,
    a letter and a rest free of line terminators; the name is the letter and
    the inline value is the rest when it is not empty. *)
Theorem short_option_shape (tok : string) (sm : smatch)
    (Hmatch : regex_match tok optRegex_ = Some sm)
    (Hshort : matched sm 1 = true) :
  (∃ c rest,
     tok = String "-" (String c rest)
     ∧ atom_match letters c = true
     ∧ str_all (atom_match Any) rest = true
     ∧ str sm 2 = String c ""
     ∧ inline_value sm 3 = (if empty rest then None else Some rest)
     ∧ matched sm 4 = false)
  ∧ ∀ c rest,
      atom_match letters c = true → str_all (atom_match Any) rest = true →
      regex_match (String "-" (String c rest)) optRegex_
      = Some [Some (String "-" (String c rest)); Some (String "-" (String c rest));
              Some (String c ""); if empty rest then None else Some rest;
              None; None; None].
Proof.
  split.
  - rewrite regex_match_closed in Hmatch.
    destruct (short_form tok) as [sm'|] eqn:Hform.
    2:{ apply long_form_not_short in Hmatch. congruence. }
    injection Hmatch as ->.
    destruct tok as [|c0 [|c rest]]; [done..|]. cbn [short_form] in Hform.
    destruct (bool_decide (c0 = "-"%char)) eqn:H0; [|done].
    apply bool_decide_eq_true_1 in H0 as ->. cbn [andb] in Hform.
    destruct (atom_match letters c) eqn:Hc; [|done].
    destruct (trailing rest) as [v|] eqn:Hv; [|done].
    injection Hform as <-. apply trailing_Some in Hv as [Hall ->].
    exists c, rest. split_and!; try done. by destruct (empty rest).
  - intros c rest Hc Hall. rewrite regex_match_closed. cbn [short_form].
    rewrite Hc. cbn [bool_decide decide_rel andb].
    change (bool_decide ("-"%char = "-"%char)) with true. cbn [andb].
    by rewrite (proj2 (trailing_Some rest _) (conj Hall eq_refl)).
Qed.

Lemma short_option_shape_witness :
  let sm := [Some "-ofoo"; Some "-ofoo"; Some "o"; Some "foo"; None; None; None] in
  regex_match "-ofoo" optRegex_ = Some sm
  ∧ (∃ c rest,
       "-ofoo" = String "-" (String c rest)
       ∧ atom_match letters c = true
       ∧ str_all (atom_match Any) rest = true
       ∧ str sm 2 = String c ""
       ∧ inline_value sm 3 = (if empty rest then None else Some rest)
       ∧ matched sm 4 = false)
  ∧ regex_match "-v" optRegex_
    = Some [Some "-v"; Some "-v"; Some "v"; None; None; None; None].
Proof.
  intros sm. split; [reflexivity|].
  destruct (short_option_shape "-ofoo" sm eq_refl eq_refl) as [Hshape Hall].
  split; [exact Hshape|]. apply (Hall "v"%char ""); reflexivity.
Defined.

(** X2: every token made of two dashes, a non-empty run of name characters
    and a rest that is free of line terminators and does not begin with a
    name character is classified as a long option with that name; the
    inline value is what follows the [=] when the rest begins with [=],
    the whole rest otherwise, none when nothing remains. *)
Theorem long_option_complete (name rest : string)
    (Hname : name ≠ "")
    (Hchars : str_all (atom_match name_chars) name = true)
    (Hstop : head_is (atom_match name_chars) rest = false)
    (Hrest : str_all (atom_match Any) rest = true) :
  regex_match ("--" +:+ name +:+ rest) optRegex_
  = Some [Some ("--" +:+ name +:+ rest); None; None; None;
          Some ("--" +:+ name +:+ rest); Some name; long_inline rest].
Proof.
  rewrite regex_match_closed.
  change ("--" +:+ name +:+ rest) with (String "-" (String "-" (name +:+ rest))).
  rewrite short_form_dashes. cbn [long_form].
  change (bool_decide ("-"%char = "-"%char)) with true. cbn [andb].
  rewrite (span_app_stop _ _ _ Hchars Hstop). cbn [fst snd].
  rewrite (empty_false _ Hname).
  assert (trailing (after_equals rest) = Some (long_inline rest)) as ->; [|done].
  apply trailing_Some. unfold after_equals, long_inline.
  destruct rest as [|c v]; [done|]. cbn [str_all] in Hrest.
  apply andb_true_iff in Hrest as [Hc Hv].
  case_bool_decide; [done|]. split; [|done]. cbn [str_all]. by rewrite Hc, Hv.
Qed.

Lemma long_option_complete_witness :
  regex_match ("--" +:+ "long-a" +:+ "=foo") optRegex_
  = Some [Some ("--" +:+ "long-a" +:+ "=foo"); None; None; None;
          Some ("--" +:+ "long-a" +:+ "=foo"); Some "long-a"; long_inline "=foo"].
Proof. apply (long_option_complete "long-a" "=foo"); [discriminate|reflexivity..]. Defined.

Lemma span_head_false f s : head_is f s = false → span f s = ("", s).
Proof. destruct s as [|c s]; [done|]. cbn. by intros ->. Qed.

Lemma span_head_true f s : head_is f s = true → (span f s).1 ≠ "".
Proof. destruct s as [|c s]; [done|]. cbn. by intros ->. Qed.

Lemma letter_is_any c : atom_match letters c = true → atom_match Any c = true.
Proof.
  destruct c as [[] [] [] [] [] [] [] []]; vm_compute; congruence.
Qed.

Lemma letter_not_dash c : atom_match letters c = true → c ≠ "-"%char.
Proof. intros Hc ->. vm_compute in Hc. discriminate Hc. Qed.

Lemma short_form_Some tok sm :
  short_form tok = Some sm →
  ∃ c rest,
    tok = String "-" (String c rest)
    ∧ atom_match letters c = true
    ∧ str_all (atom_match Any) rest = true
    ∧ sm = [Some tok; Some tok; Some (String c ""); if empty rest then None else Some rest;
            None; None; None].
Proof.
  destruct tok as [|c0 [|c rest]]; [done..|]. cbn [short_form].
  destruct (bool_decide (c0 = "-"%char)) eqn:H0; [|done].
  apply bool_decide_eq_true_1 in H0 as ->. cbn [andb].
  destruct (atom_match letters c) eqn:Hc; [|done].
  destruct (trailing rest) as [v|] eqn:Hv; [|done].
  intros [= <-]. apply trailing_Some in Hv as [Hall ->]. by exists c, rest.
Qed.

Lemma long_inline_after_equals r :
  (if empty (after_equals r) then None else Some (after_equals r)) = long_inline r.
Proof.
  unfold after_equals, long_inline. destruct r as [|c v]; [done|].
  case_bool_decide; [done|]. by rewrite empty_cons.
Qed.

Lemma long_form_Some tok sm :
  long_form tok = Some sm →
  ∃ n r,
    tok = String "-" (String "-" (n +:+ r))
    ∧ n ≠ ""
    ∧ str_all (atom_match name_chars) n = true
    ∧ head_is (atom_match name_chars) r = false
    ∧ str_all (atom_match Any) r = true
    ∧ sm = [Some tok; None; None; None; Some tok; Some n; long_inline r].
Proof.
  destruct tok as [|c0 [|c1 s]]; [done..|]. cbn [long_form].
  destruct (bool_decide (c0 = "-"%char)) eqn:H0; [|done].
  destruct (bool_decide (c1 = "-"%char)) eqn:H1; [|done].
  apply bool_decide_eq_true_1 in H0 as ->. apply bool_decide_eq_true_1 in H1 as ->.
  cbn [andb].
  destruct (empty (span (atom_match name_chars) s).1) eqn:Hn; [done|].
  destruct (trailing (after_equals (span (atom_match name_chars) s).2)) as [v|] eqn:Hv;
    [|done].
  intros [= <-].
  exists (span (atom_match name_chars) s).1, (span (atom_match name_chars) s).2.
  split_and!.
  - by rewrite span_app.
  - by apply bool_decide_eq_false_1 in Hn.
  - apply span_all.
  - apply span_maximal.
  - destruct (str_all (atom_match Any) (span (atom_match name_chars) s).2) eqn:Hr; [done|].
    apply trailing_after_equals in Hr. congruence.
  - apply trailing_Some in Hv as [_ ->]. by rewrite long_inline_after_equals.
Qed.

(** The token of an option is free of line terminators. *)
Lemma regex_match_any tok sm :
  regex_match tok optRegex_ = Some sm → str_all (atom_match Any) tok = true.
Proof.
  rewrite regex_match_closed.
  destruct (short_form tok) as [sm'|] eqn:Hshort.
  - intros _. apply short_form_Some in Hshort as (c & rest & -> & Hc & Hrest & _).
    cbn [str_all]. by rewrite (letter_is_any c Hc), Hrest.
  - intros (n & r & -> & _ & Hn & _ & Hr & _)%long_form_Some.
    cbn [str_all]. by rewrite str_all_app, (str_all_name_any n Hn), Hr.
Qed.

(** X3: a token holding a line feed or a carriage return is never
    classified as an option, whatever its beginning. *)
Theorem line_terminator_never_option (tok : string)
    (Hline : str_all (atom_match Any) tok = false) :
  regex_match tok optRegex_ = None.
Proof.
  destruct (regex_match tok optRegex_) as [sm|] eqn:Hmatch; [|done].
  apply regex_match_any in Hmatch. congruence.
Qed.

Lemma line_terminator_never_option_witness :
  regex_match (String "-" (String "a" (String "010" "b"))) optRegex_ = None.
Proof. apply line_terminator_never_option. reflexivity. Defined.

(** X4: a token free of line terminators is left unmatched by [optRegex]
    exactly when it has no leading dash, is a dash alone, is a dash followed
    by a character that is neither a letter nor a dash, or is two dashes not
    followed by a name character. *)
Theorem plain_text_shape (tok : string)
    (Hany : str_all (atom_match Any) tok = true) :
  regex_match tok optRegex_ = None ↔ plain_shape tok = true.
Proof.
  rewrite regex_match_closed. destruct tok as [|c0 [|c rest]]; [done..|].
  cbn [short_form long_form plain_shape].
  cbn [str_all] in Hany. apply andb_true_iff in Hany as [_ [_ Hrest]%andb_true_iff].
  destruct (bool_decide (c0 = "-"%char)); [|done]. cbn [andb negb orb].
  destruct (atom_match letters c) eqn:Hc.
  - rewrite (proj2 (trailing_Some rest _) (conj Hrest eq_refl)).
    rewrite (bool_decide_eq_false_2 (c = "-"%char)) by by apply letter_not_dash.
    done.
  - cbn [negb andb]. case_bool_decide as Hdash; [|done]. cbn [negb orb andb].
    destruct (head_is (atom_match name_chars) rest) eqn:Hhead.
    + rewrite (empty_false _ (span_head_true _ _ Hhead)).
      destruct (trailing _) eqn:Ht; [done|].
      apply trailing_after_equals in Ht.
      rewrite <-(span_app (atom_match name_chars) rest), str_all_app in Hrest.
      apply andb_true_iff in Hrest as [_ Hr]. congruence.
    + by rewrite (span_head_false _ _ Hhead).
Qed.

Lemma plain_text_shape_witness :
  (regex_match "-5" optRegex_ = None ↔ plain_shape "-5" = true)
  ∧ (regex_match "--" optRegex_ = None ↔ plain_shape "--" = true)
  ∧ (regex_match "-x5" optRegex_ = None ↔ plain_shape "-x5" = true).
Proof.
  split; [|split]; apply plain_text_shape; reflexivity.
Defined.

Lemma regex_match_shapes tok sm :
  regex_match tok optRegex_ = Some sm →
  str sm 0 = tok
  ∧ matched sm 1 = negb (matched sm 4)
  ∧ (matched sm 1 = true → str sm 1 = tok ∧ matched sm 2 = true)
  ∧ (matched sm 4 = true → str sm 4 = tok ∧ matched sm 5 = true)
  ∧ length sm = 7%nat.
Proof.
  intros Hmatch. rewrite regex_match_closed in Hmatch.
  destruct (short_form tok) as [sm'|] eqn:Hshort.
  - injection Hmatch as ->.
    apply short_form_Some in Hshort as (c & rest & -> & _ & _ & ->). by repeat split.
  - apply long_form_Some in Hmatch as (n & r & -> & _ & _ & _ & _ & ->). by repeat split.
Qed.

(** X5: a match of [optRegex] covers the whole token and fills exactly one
    of the sub-matches 1 (short option) and 4 (long option), so that the
    two branches of [parse] handle every token the expression matches. *)
Theorem regex_match_one_shape (tok : string) (sm : smatch)
    (Hmatch : regex_match tok optRegex_ = Some sm) :
  str sm 0 = tok
  ∧ matched sm 1 = negb (matched sm 4)
  ∧ (matched sm 1 = true → str sm 1 = tok ∧ matched sm 2 = true)
  ∧ (matched sm 4 = true → str sm 4 = tok ∧ matched sm 5 = true)
  ∧ length sm = 7%nat.
Proof. by apply regex_match_shapes. Qed.

Lemma regex_match_one_shape_witness :
  let sm := [Some "--long-a=foo"; None; None; None;
             Some "--long-a=foo"; Some "long-a"; Some "foo"] in
  str sm 0 = "--long-a=foo"
  ∧ matched sm 1 = negb (matched sm 4)
  ∧ (matched sm 1 = true → str sm 1 = "--long-a=foo" ∧ matched sm 2 = true)
  ∧ (matched sm 4 = true → str sm 4 = "--long-a=foo" ∧ matched sm 5 = true)
  ∧ length sm = 7%nat.
Proof. intros sm. apply (regex_match_one_shape "--long-a=foo" sm). reflexivity. Defined.

(** ** The registry, continued *)

Lemma reachable_result_length self :
  reachable self → (length (result_ self) ≤ length (opt_ self))%nat.
Proof.
  induction 1 as [|self s l t o h d self' _ IH Hadd|self argv _ IH]; [done| |].
  - apply addOption_inr in Hadd as [-> _]. cbn [opt_ result_]. rewrite List.length_app. lia.
  - by rewrite parse_result_length.
Qed.

Lemma find_if_app_l {A} (f : A → bool) (l1 l2 : list A) i x :
  find_if f l1 = Some (i, x) → find_if f (l1 ++ l2) = Some (i, x).
Proof. apply list_find_app_l. Qed.

Lemma find_if_snoc_new {A} (f : A → bool) (l : list A) x :
  (∀ y, y ∈ l → f y = false) → f x = true → find_if f (l ++ [x]) = Some (length l, x).
Proof.
  intros Hl Hx. apply find_if_Some. split_and!.
  - by rewrite lookup_app_r, Nat.sub_diag by lia.
  - done.
  - intros j y Hj Hlt. apply Hl. rewrite lookup_app_l in Hj by done.
    by eapply list_elem_of_lookup_2.
Qed.

(** X6: after a successful [addOption], [optIndex] finds the new option, at
    the end of the registry, by its non-empty short name when no option
    registered before has this text as long name, and by its non-empty long
    name when none has it as short name. *)
Theorem addOption_then_optIndex (s l : string) (t : OptType.t) (o : bool) (h d : string)
    (self self' : OptParser)
    (Hadd : addOption s l t o h d self = inr self') :
  opt_ self' !! length (opt_ self)
  = Some {| shortName := s; longName := l; defaultVal := d; helpMessage := h;
            type := t; optional := o |}
  ∧ (s ≠ "" → (∀ p, p ∈ opt_ self → longName p ≠ s) →
     optIndex s self' = Z.of_nat (length (opt_ self)))
  ∧ (l ≠ "" → (∀ p, p ∈ opt_ self → shortName p ≠ l) →
     optIndex l self' = Z.of_nat (length (opt_ self))).
Proof.
  apply addOption_inr in Hadd as [-> Hfree]. cbn [opt_].
  split_and!.
  - by rewrite lookup_app_r, Nat.sub_diag by lia.
  - intros Hs Hlong. unfold optIndex. cbn [opt_].
    rewrite (find_if_snoc_new _ (opt_ self)); [done| |].
    + intros p Hp. specialize (Hfree p Hp). unfold share_name in Hfree. cbn in Hfree.
      apply orb_false_iff in Hfree as [Hshort _].
      rewrite (bool_decide_eq_true_2 (s ≠ "")), andb_true_r in Hshort by done.
      apply bool_decide_eq_false_1 in Hshort.
      rewrite !bool_decide_eq_false_2; [done|by apply Hlong|congruence].
    + cbn. by rewrite bool_decide_eq_true_2.
  - intros Hl Hshort. unfold optIndex. cbn [opt_].
    rewrite (find_if_snoc_new _ (opt_ self)); [done| |].
    + intros p Hp. specialize (Hfree p Hp). unfold share_name in Hfree. cbn in Hfree.
      apply orb_false_iff in Hfree as [_ Hlong].
      rewrite (bool_decide_eq_true_2 (l ≠ "")), andb_true_r in Hlong by done.
      apply bool_decide_eq_false_1 in Hlong.
      rewrite !bool_decide_eq_false_2; [done|congruence|by apply Hshort].
    + cbn. rewrite (bool_decide_eq_true_2 (l = l)) by done. apply orb_true_r.
Qed.

Lemma addOption_then_optIndex_witness :
  let self := {| opt_ := [opt_a]; result_ := []; arg_ := [] |} in
  addOption "b" "long-b" OptType.trigger false "option b" "" self = inr test_opt
  ∧ opt_ test_opt !! length (opt_ self) = Some opt_b
  ∧ optIndex "b" test_opt = Z.of_nat (length (opt_ self))
  ∧ optIndex "long-b" test_opt = Z.of_nat (length (opt_ self)).
Proof.
  intros self. split; [reflexivity|].
  destruct (addOption_then_optIndex "b" "long-b" OptType.trigger false "option b" ""
              self test_opt eq_refl) as (Hnew & Hshort & Hlong).
  split; [exact Hnew|]. split.
  - apply Hshort; [discriminate|]. intros p Hp.
    apply list_elem_of_singleton in Hp as ->. discriminate.
  - apply Hlong; [discriminate|]. intros p Hp.
    apply list_elem_of_singleton in Hp as ->. discriminate.
Defined.

(** The two name spaces are not checked against each other: an option whose
    long name is the short name of a later one hides it from [optIndex]. *)
Example optIndex_hidden_by_long_name :
  match addOption "x" "a" OptType.trigger true "" "" new_parser with
  | inr self =>
      match addOption "a" "" OptType.value true "" "" self with
      | inr self' => optIndex "a" self' = 0
      | inl _ => False
      end
  | inl _ => False
  end.
Proof. reflexivity. Qed.

(** X7: a name that [optIndex] finds keeps its index when further options
    are registered. *)
Theorem optIndex_stable (name s l : string) (t : OptType.t) (o : bool) (h d : string)
    (self self' : OptParser)
    (Hadd : addOption s l t o h d self = inr self')
    (Hfound : 0 ≤ optIndex name self) :
  optIndex name self' = optIndex name self.
Proof.
  apply addOption_inr in Hadd as [-> _]. unfold optIndex in *. cbn [opt_].
  destruct (find_if _ (opt_ self)) as [[i p]|] eqn:Hfind; [|lia].
  by rewrite (find_if_app_l _ _ _ _ _ Hfind).
Qed.

Lemma optIndex_stable_witness :
  let self := {| opt_ := [opt_a]; result_ := []; arg_ := [] |} in
  optIndex "long-a" test_opt = optIndex "long-a" self.
Proof.
  intros self.
  apply (optIndex_stable "long-a" "b" "long-b" OptType.trigger false "option b" "" self);
    [reflexivity|]. vm_compute. discriminate.
Defined.

(** X8: on an object built by [addOption] and [parse], a successful
    [addOption] leaves the result store shorter than the registry, so that
    both queries throw [runtime_error] (options not parsed) for every name
    until [parse] is called again. *)
Theorem addOption_invalidates_results (name s l : string) (t : OptType.t) (o : bool)
    (h d : string) (self self' : OptParser) (argv : list string)
    (Hreach : reachable self)
    (Hadd : addOption s l t o h d self = inr self') :
  gotOption name self' = inl (runtime_error "options not parsed")
  ∧ optionValue name self' = inl (runtime_error "options not parsed")
  ∧ gotOption name (this (parse argv self')) ≠ inl (runtime_error "options not parsed")
  ∧ optionValue name (this (parse argv self')) ≠ inl (runtime_error "options not parsed").
Proof.
  pose proof (reachable_result_length self Hreach) as Hle.
  apply addOption_inr in Hadd as [-> _].
  unfold gotOption, optionValue. cbn [opt_ result_].
  rewrite !(bool_decide_eq_false_2 (length (result_ self) = _))
    by (rewrite List.length_app; cbn; lia).
  rewrite !(bool_decide_eq_true_2 (length (result_ (this (parse argv _))) = _))
    by apply parse_result_length.
  cbn [negb]. split_and!; try done; by case_bool_decide.
Qed.

Lemma addOption_invalidates_results_witness :
  let parsed := this (parse ["prog"; "-afoo"] test_opt) in
  let self' := {| opt_ := opt_ parsed
                          ++ [{| shortName := "c"; longName := ""; defaultVal := "";
                                 helpMessage := ""; type := OptType.trigger;
                                 optional := true |}];
                  result_ := result_ parsed; arg_ := arg_ parsed |} in
  gotOption "a" parsed = inr true
  ∧ gotOption "a" self' = inl (runtime_error "options not parsed")
  ∧ optionValue "a" self' = inl (runtime_error "options not parsed")
  ∧ gotOption "a" (this (parse ["prog"] self')) ≠ inl (runtime_error "options not parsed")
  ∧ optionValue "a" (this (parse ["prog"] self')) ≠ inl (runtime_error "options not parsed").
Proof.
  intros parsed self'. split; [reflexivity|].
  apply (addOption_invalidates_results "a" "c" "" OptType.trigger true "" "" parsed self').
  - apply reachable_parse, test_opt_reachable.
  - reflexivity.
Defined.

(** ** Printing, continued *)

Lemma length_spaces n : String.length (spaces n) = n.
Proof. induction n as [|n IH]; [done|]. cbn. by rewrite IH. Qed.

(** [setw] never cuts its text: the field is the text itself when it is
    at least as long as the width, and otherwise has exactly the width, the
    text standing at its right end after spaces only. *)
Theorem setw_width (w : nat) (s : string) :
  String.length (setw w s) = (w `max` String.length s)%nat
  ∧ (∃ pad, setw w s = pad +:+ s ∧ str_all (λ c, bool_decide (c = " "%char)) pad = true)
  ∧ ((w ≤ String.length s)%nat → setw w s = s).
Proof.
  unfold setw. split_and!.
  - rewrite length_app, length_spaces. lia.
  - exists (spaces (w - String.length s)). split; [done|].
    induction (w - String.length s)%nat as [|n IH]; [done|]. cbn. by rewrite IH.
  - intros Hle. by replace (w - String.length s)%nat with 0%nat by lia.
Qed.

Lemma setw_width_witness :
  String.length (setw 20 "-a/--long-a=") = (20 `max` String.length "-a/--long-a=")%nat
  ∧ (∃ pad, setw 20 "-a/--long-a=" = pad +:+ "-a/--long-a="
            ∧ str_all (λ c, bool_decide (c = " "%char)) pad = true)
  ∧ setw 5 "-a/--long-a=" = "-a/--long-a=".
Proof.
  destruct (setw_width 20 "-a/--long-a=") as (Hlen & Hpad & _).
  destruct (setw_width 5 "-a/--long-a=") as (_ & _ & Hlong).
  split; [exact Hlen|]. split; [exact Hpad|]. apply Hlong. cbn. lia.
Defined.

(** X10: registering an option adds its line at the end of what the stream
    operator prints and changes nothing of the lines printed before. *)
Theorem print_after_addOption (out s l : string) (t : OptType.t) (o : bool) (h d : string)
    (self self' : OptParser)
    (Hadd : addOption s l t o h d self = inr self') :
  print out self'
  = print out self
    +:+ option_line {| shortName := s; longName := l; defaultVal := d; helpMessage := h;
                       type := t; optional := o |}.
Proof.
  apply addOption_inr in Hadd as [-> _]. unfold print. cbn [opt_].
  by rewrite foldl_app, <-print_option_line.
Qed.

Lemma print_after_addOption_witness :
  print "" test_opt
  = print "" {| opt_ := [opt_a]; result_ := []; arg_ := [] |} +:+ option_line opt_b.
Proof.
  apply (print_after_addOption "" "b" "long-b" OptType.trigger false "option b" ""
           {| opt_ := [opt_a]; result_ := []; arg_ := [] |} test_opt).
  reflexivity.
Defined.

(** ** The parse loop, continued *)

Section loop_facts.

Implicit Types (self : OptParser) (st : frame) (tok : string) (o : OptPar) (i : nat).

(** A token goes to the positional arguments exactly when it is not an
    option and no value is awaited. *)
Lemma parse_step_arg tok st :
  arg_ (this (parse_step tok st))
  = arg_ (this st)
    ++ (if is_option tok || bool_decide (0 ≤ expectVal st) then [] else [tok]).
Proof.
  unfold is_option. step_cases; cbn [orb]; by rewrite ?app_nil_r.
Qed.

Lemma parse_loop_arg arg st :
  ∃ l, arg_ (this (parse_loop arg st)) = arg_ (this st) ++ l
       ∧ l `sublist_of` filter (λ t, is_option t = false) arg.
Proof.
  revert st. induction arg as [|tok arg IH]; intros st.
  - exists []. by rewrite app_nil_r.
  - cbn [parse_loop]. destruct (IH (parse_step tok st)) as (l & -> & Hl).
    rewrite parse_step_arg, filter_cons.
    destruct (is_option tok) eqn:Hopt; cbn [orb].
    + rewrite decide_False by done. rewrite app_nil_r. by exists l.
    + rewrite decide_True by done. case_bool_decide.
      * rewrite app_nil_r. exists l. split; [done|]. by apply sublist_cons.
      * rewrite <-app_assoc. exists (tok :: l). split; [done|]. by apply sublist_skip.
Qed.

(** A token that does not designate option [i] leaves its presence flag
    as it is. *)
Lemma parse_step_present_other tok st i :
  (∀ o, resolve (opt_ (this st)) tok ≠ Some (i, o)) →
  present <$> result_ (this (parse_step tok st)) !! i = present <$> result_ (this st) !! i.
Proof.
  intros Hres. unfold resolve in Hres.
  step_cases;
    repeat match goal with
           | H : regex_match _ _ = _ |- _ => rewrite H in Hres; clear H
           | H : matched _ _ = _ |- _ => rewrite ?H in Hres; clear H
           end;
    try match goal with
        | H : find_if _ _ = Some (?j, ?it) |- _ =>
            assert (j ≠ i) by (intros ->; by apply (Hres it))
        end;
    rewrite ?list_lookup_alter; repeat case_decide; subst; try done;
    by destruct (result_ (this st) !! _).
Qed.

Lemma parse_loop_present_other arg st i :
  (∀ tok o, tok ∈ arg → resolve (opt_ (this st)) tok ≠ Some (i, o)) →
  present <$> result_ (this (parse_loop arg st)) !! i = present <$> result_ (this st) !! i.
Proof.
  revert st. induction arg as [|tok arg IH]; intros st Hres; [done|].
  cbn [parse_loop]. rewrite IH.
  - apply parse_step_present_other. intros o. apply Hres. by left.
  - intros tok' o Hin. rewrite parse_step_opt. apply Hres. by right.
Qed.

Lemma parse_loop_present_iff arg st i o :
  frame_ok st → opt_ (this st) !! i = Some o →
  is_present (parse_loop arg st) i
  ↔ is_present st i ∨ ∃ tok, tok ∈ arg ∧ resolve (opt_ (this st)) tok = Some (i, o).
Proof.
  revert st. induction arg as [|tok arg IH]; intros st Hok Hi.
  - cbn [parse_loop]. split; [by left|]. intros [?|(tok & Htok & _)]; [done|].
    by apply elem_of_nil in Htok.
  - cbn [parse_loop]. rewrite IH by (by apply parse_step_ok || by rewrite parse_step_opt).
    rewrite parse_step_opt. split.
    + intros [Hp|(tok' & Hin & Hres)].
      * destruct (resolve (opt_ (this st)) tok) as [[j o']|] eqn:Hres.
        -- destruct (decide (j = i)) as [->|Hne].
           ++ right. exists tok. split; [by left|].
              apply resolve_lookup in Hres as Hj. congruence.
           ++ left. unfold is_present in *.
              rewrite parse_step_present_other in Hp; [done|].
              intros o''. rewrite Hres. congruence.
        -- left. unfold is_present in *.
           rewrite parse_step_present_other in Hp; [done|].
           intros o''. by rewrite Hres.
      * right. exists tok'. split; [by right|done].
    + intros [Hp|(tok' & Hin & Hres)].
      * left. by apply parse_step_present.
      * apply elem_of_cons in Hin as [->|Hin].
        -- left. by eapply parse_step_marks.
        -- right. by exists tok'.
Qed.

Lemma mandatory_fold_missing st l o r :
  (o, r) ∈ l → optional o = false → present r = false →
  isCorrect (foldl mandatory_step st l) = false
  ∧ MissingMandatoryOption (optName o) ∈ cerr (foldl mandatory_step st l).
Proof.
  revert st. induction l as [|x l IH]; intros st Hin Ho Hr.
  - by apply elem_of_nil in Hin.
  - cbn [foldl]. apply elem_of_cons in Hin as [<-|Hin]; [|by apply IH].
    unfold mandatory_step at 2 4. cbn [fst snd]. rewrite Ho, Hr. cbn [negb andb].
    split; [by apply mandatory_fold_incorrect|].
    edestruct mandatory_fold_cerr as [ws ->]. cbn [cerr].
    apply elem_of_app. left. apply elem_of_app. right. by left.
Qed.

(** The value stored for option [i] stays what it is as long as the option
    the loop handles, or awaits a value for, is another one. *)
Lemma parse_step_value_other tok st i :
  (∀ o, resolve (opt_ (this st)) tok = Some (i, o) → type o = OptType.trigger) →
  expectVal st ≠ Z.of_nat i →
  value <$> result_ (this (parse_step tok st)) !! i = value <$> result_ (this st) !! i
  ∧ expectVal (parse_step tok st) ≠ Z.of_nat i.
Proof.
  intros Hres Hexp. unfold resolve in Hres.
  step_cases;
    repeat match goal with
           | H : regex_match _ _ = _ |- _ => rewrite H in Hres; clear H
           | H : matched _ _ = _ |- _ => rewrite ?H in Hres; clear H
           end;
    try match goal with
        | H : find_if _ _ = Some (?j, ?it), Hv : type ?it = OptType.value |- _ =>
            assert (j ≠ i)
              by (intros ->; specialize (Hres it eq_refl); rewrite Hres in Hv; discriminate Hv)
        end;
    rewrite ?list_lookup_alter; repeat case_decide; subst; try lia;
    (split; [by destruct (result_ (this st) !! _)|lia]).
Qed.

Lemma parse_loop_value_other arg st i :
  (∀ tok o, tok ∈ arg → resolve (opt_ (this st)) tok = Some (i, o) →
     type o = OptType.trigger) →
  expectVal st ≠ Z.of_nat i →
  value <$> result_ (this (parse_loop arg st)) !! i = value <$> result_ (this st) !! i.
Proof.
  revert st. induction arg as [|tok arg IH]; intros st Hres Hexp; [done|].
  cbn [parse_loop].
  destruct (parse_step_value_other tok st i) as [Hv He]; [|done|].
  { intros o. apply Hres. by left. }
  rewrite IH; [done| |done].
  intros tok' o Hin. rewrite parse_step_opt. apply Hres. by right.
Qed.

End loop_facts.

(** ** Positional arguments *)

(** X11: the positional arguments left by [parse] are tokens of the
    argument vector that [optRegex] does not match, in the order of the
    vector: an option-shaped token never becomes a positional argument. *)
Theorem positional_sublist (argv : list string) (self : OptParser) :
  getArgs (this (parse argv self))
  `sublist_of` filter (λ t, is_option t = false) (drop 1 argv).
Proof.
  unfold getArgs. rewrite parse_this.
  by destruct (parse_loop_arg (drop 1 argv) (parse_init self)) as (l & -> & Hl).
Qed.

Lemma parse_loop_arg_exact arg st opts :
  opt_ (this st) = opts →
  expectVal st < 0 →
  (∀ tok i o, tok ∈ arg → resolve opts tok = Some (i, o) →
     type o = OptType.value → inline tok ≠ None) →
  arg_ (this (parse_loop arg st)) = arg_ (this st) ++ filter (λ t, is_option t = false) arg
  ∧ expectVal (parse_loop arg st) < 0.
Proof.
  revert st. induction arg as [|tok arg IH]; intros st Hopt Hexp Hres.
  - cbn. by rewrite app_nil_r.
  - cbn [parse_loop].
    assert (expectVal (parse_step tok st) < 0) as Hexp'.
    { destruct (resolve opts tok) as [[i o]|] eqn:Hr.
      - rewrite (parse_step_resolved tok st i o) by (by rewrite Hopt || done).
        case_bool_decide as Hv; [|done].
        destruct (inline tok) eqn:Hi; [done|].
        destruct (Hres tok i o); [by left|done..].
      - unfold resolve in Hr. rewrite <-Hopt in Hr. step_cases; try lia; congruence. }
    destruct (IH (parse_step tok st)) as [-> ?]; [by rewrite parse_step_opt|done| |].
    { intros tok' i o Hin. apply Hres. by right. }
    split; [|done]. rewrite parse_step_arg, filter_cons.
    rewrite (bool_decide_eq_false_2 (0 ≤ expectVal st)) by lia.
    destruct (is_option tok); cbn [orb].
    + rewrite decide_False by done. by rewrite app_nil_r.
    + rewrite decide_True by done. by rewrite <-app_assoc.
Qed.

(** X12: when no token of the argument vector designates a value option
    without carrying its value inline (in particular when the registry holds
    trigger options only), no token is taken as a value: the positional
    arguments are exactly the tokens that [optRegex] does not match. *)
Theorem positional_exact (argv : list string) (self : OptParser)
    (Hinline : ∀ tok i o, tok ∈ drop 1 argv → resolve (opt_ self) tok = Some (i, o) →
                 type o = OptType.value → inline tok ≠ None) :
  getArgs (this (parse argv self)) = filter (λ t, is_option t = false) (drop 1 argv).
Proof.
  unfold getArgs. rewrite parse_this.
  destruct (parse_loop_arg_exact (drop 1 argv) (parse_init self) (opt_ self)) as [-> _];
    [done|by cbn|done|done].
Qed.

Lemma positional_exact_witness :
  getArgs (this (parse ["prog"; "in"; "-b"; "-afoo"; "--long-a=bar"; "out"; "-5"] test_opt))
  = ["in"; "out"; "-5"].
Proof.
  apply (positional_exact
           ["prog"; "in"; "-b"; "-afoo"; "--long-a=bar"; "out"; "-5"] test_opt).
  intros tok i o Hin Hres Hvalue.
  repeat (apply elem_of_cons in Hin as [->|Hin];
          [vm_compute in Hres;
           first [discriminate Hres
                 |injection Hres as <- <-; first [discriminate Hvalue|by vm_compute]]|]).
  by apply elem_of_nil in Hin.
Defined.

(** ** Presence and mandatory options *)

(** X13: after [parse], the presence flag of a registered option is set
    exactly when some token of the argument vector designates it: as a short
    option bearing its short name or as a long option bearing its long
    name. *)
Theorem present_iff_designated (argv : list string) (self : OptParser)
    (i : nat) (o : OptPar)
    (Hopt : opt_ self !! i = Some o) :
  ∃ r, result_ (this (parse argv self)) !! i = Some r
       ∧ (present r = true
          ↔ ∃ tok, tok ∈ drop 1 argv ∧ resolve (opt_ self) tok = Some (i, o)).
Proof.
  destruct (lookup_lt_is_Some_2 (result_ (this (parse argv self))) i) as [r Hr].
  { rewrite parse_result_length, parse_opt. by eapply lookup_lt_Some. }
  exists r. split; [done|].
  pose proof (parse_loop_present_iff (drop 1 argv) (parse_init self) i o
                (parse_init_ok self) Hopt) as Hiff.
  unfold is_present in Hiff. rewrite <-parse_this, Hr in Hiff. cbn in Hiff.
  rewrite list_lookup_fmap, Hopt in Hiff. cbn in Hiff.
  split.
  - intros Hp. destruct (proj1 Hiff) as [Hf|Ht]; [by rewrite Hp|discriminate Hf|done].
  - intros Htok. pose proof (proj2 Hiff (or_intror Htok)) as Hq. by injection Hq.
Qed.

Lemma present_iff_designated_witness :
  ∃ r, result_ (this (parse ["prog"; "x"; "--long-b"] test_opt)) !! 1%nat = Some r
       ∧ (present r = true
          ↔ ∃ tok, tok ∈ drop 1 ["prog"; "x"; "--long-b"]
                   ∧ resolve (opt_ test_opt) tok = Some (1%nat, opt_b)).
Proof.
  apply (present_iff_designated ["prog"; "x"; "--long-b"] test_opt 1 opt_b). reflexivity.
Defined.

Lemma parse_missing_mandatory argv self i o :
  opt_ self !! i = Some o →
  optional o = false →
  (∀ tok o', tok ∈ drop 1 argv → resolve (opt_ self) tok ≠ Some (i, o')) →
  isCorrect (parse argv self) = false
  ∧ MissingMandatoryOption (optName o) ∈ cerr (parse argv self).
Proof.
  intros Hopt Hmandatory Habsent.
  set (st := parse_loop (drop 1 argv) (parse_init self)).
  pose proof (parse_loop_present_other (drop 1 argv) (parse_init self) i Habsent) as Hp.
  fold st in Hp. cbn in Hp. rewrite list_lookup_fmap, Hopt in Hp. cbn in Hp.
  destruct (result_ (this st) !! i) as [r|] eqn:Hr; [|done]. injection Hp as Hp.
  assert ((o, r) ∈ zip (opt_ (this (parse_pending st))) (result_ (this (parse_pending st))))
    as Hin.
  { rewrite parse_pending_this. unfold st at 1. rewrite parse_loop_opt.
    apply (list_elem_of_lookup_2 _ i). rewrite lookup_zip_with.
    cbn [parse_init this opt_]. by rewrite Hopt, Hr. }
  by destruct (mandatory_fold_missing (parse_pending st) _ o r Hin Hmandatory Hp).
Qed.

(** X14: when a registered option is not optional and no token of the
    argument vector designates it, [parse] returns [false] and writes the
    missing-mandatory-option warning naming it, whatever the other tokens
    are. *)
Theorem mandatory_option_missing (argv : list string) (self : OptParser)
    (i : nat) (o : OptPar)
    (Hopt : opt_ self !! i = Some o)
    (Hmandatory : optional o = false)
    (Habsent : ∀ tok o', tok ∈ drop 1 argv → resolve (opt_ self) tok ≠ Some (i, o')) :
  isCorrect (parse argv self) = false
  ∧ MissingMandatoryOption (optName o) ∈ cerr (parse argv self).
Proof. by apply (parse_missing_mandatory argv self i o). Qed.

Lemma mandatory_option_missing_witness :
  isCorrect (parse ["prog"; "-afoo"; "x"] test_opt) = false
  ∧ MissingMandatoryOption (optName opt_b) ∈ cerr (parse ["prog"; "-afoo"; "x"] test_opt).
Proof.
  apply (mandatory_option_missing ["prog"; "-afoo"; "x"] test_opt 1 opt_b);
    [reflexivity..|].
  intros tok o' Hin.
  repeat (apply elem_of_cons in Hin as [->|Hin]; [vm_compute; discriminate|]).
  by apply elem_of_nil in Hin.
Defined.

(** ** Value binding, continued *)

Lemma parse_step_inline tok st i o v :
  frame_ok st →
  resolve (opt_ (this st)) tok = Some (i, o) →
  type o = OptType.value →
  inline tok = Some v →
  result_ (this (parse_step tok st)) !! i = Some {| value := v; present := true |}
  ∧ expectVal (parse_step tok st) < 0.
Proof.
  intros [Hlen _] Hres Hvalue Hinline.
  pose proof (resolve_lookup _ _ _ _ Hres) as Hi%lookup_lt_Some.
  destruct (lookup_lt_is_Some_2 (result_ (this st)) i) as [r Hr]; [lia|].
  unfold resolve, inline, inline_value in *. unfold parse_step, option_branch.
  destruct (regex_match tok optRegex_) as [sm|]; [|done].
  destruct (matched sm 1).
  - destruct (matched sm 3); [|done]. injection Hinline as <-.
    case_bool_decide; frame_simpl; rewrite Hres; frame_simpl;
      rewrite (bool_decide_eq_true_2 _ Hvalue); frame_simpl;
      rewrite !list_lookup_alter_eq, Hr; split; (done || lia).
  - destruct (matched sm 4); [|done]. destruct (matched sm 6); [|done].
    injection Hinline as <-.
    case_bool_decide; frame_simpl; rewrite Hres; frame_simpl;
      rewrite (bool_decide_eq_true_2 _ Hvalue); frame_simpl;
      rewrite !list_lookup_alter_eq, Hr; split; (done || lia).
Qed.

(** X15: the value stored for a trigger option in the result store is its
    default after every call to [parse]: no token, inline or following, is
    ever bound to it; [optionValue] returns this default when it is called
    with a name that [optIndex] resolves to this option. *)
Theorem trigger_keeps_default (argv : list string) (self : OptParser)
    (i : nat) (o : OptPar)
    (Hopt : opt_ self !! i = Some o)
    (Htrigger : type o = OptType.trigger) :
  (∃ r, result_ (this (parse argv self)) !! i = Some r ∧ value r = defaultVal o)
  ∧ ∀ name, optIndex name self = Z.of_nat i →
      optionValue name (this (parse argv self)) = inr (defaultVal o).
Proof.
  assert (value <$> result_ (this (parse argv self)) !! i = Some (defaultVal o)) as Hv.
  { rewrite parse_this, parse_loop_value_other.
    - cbn. by rewrite list_lookup_fmap, Hopt.
    - intros tok o' _ Hres. apply resolve_lookup in Hres. cbn in Hres. congruence.
    - cbn. lia. }
  destruct (result_ (this (parse argv self)) !! i) as [r|] eqn:Hr; [|done].
  injection Hv as Hv. split; [by exists r|].
  intros name Hname. unfold optionValue.
  rewrite (optIndex_ext name _ self) by apply parse_opt. rewrite Hname.
  rewrite (bool_decide_eq_true_2 (length _ = _)) by apply parse_result_length.
  rewrite (bool_decide_eq_true_2 (0 ≤ _)) by lia.
  cbn [negb]. by rewrite Nat2Z.id, (list_lookup_total_correct _ _ _ Hr), Hv.
Qed.

Lemma trigger_keeps_default_witness :
  (∃ r, result_ (this (parse ["prog"; "-bfoo"; "--long-b=bar"; "-b"; "x"] test_opt)) !! 1%nat
        = Some r ∧ value r = defaultVal opt_b)
  ∧ ∀ name, optIndex name test_opt = 1 →
      optionValue name (this (parse ["prog"; "-bfoo"; "--long-b=bar"; "-b"; "x"] test_opt))
      = inr (defaultVal opt_b).
Proof.
  apply (trigger_keeps_default ["prog"; "-bfoo"; "--long-b=bar"; "-b"; "x"] test_opt 1 opt_b);
    reflexivity.
Defined.

(** X16: the value carried inline by the last token that designates a
    value option is the value stored for it, whatever precedes this token. *)
Theorem value_bound_inline (self : OptParser) (prog tok v : string)
    (pre post : list string) (i : nat) (o : OptPar)
    (Hres : resolve (opt_ self) tok = Some (i, o))
    (Hvalue : type o = OptType.value)
    (Hinline : inline tok = Some v)
    (Hlast : ∀ t o', t ∈ post → resolve (opt_ self) t ≠ Some (i, o')) :
  result_ (this (parse (prog :: pre ++ tok :: post) self)) !! i
  = Some {| value := v; present := true |}.
Proof.
  rewrite parse_this.
  change (drop 1 (prog :: pre ++ tok :: post)) with (pre ++ tok :: post).
  rewrite parse_loop_app. cbn [parse_loop].
  set (st1 := parse_loop pre (parse_init self)).
  assert (opt_ (this st1) = opt_ self) as Hopt1 by apply parse_loop_opt.
  destruct (parse_step_inline tok st1 i o v) as [Hr He];
    [apply parse_loop_inv, parse_init_ok|by rewrite Hopt1|done..|].
  destruct (parse_loop_other post (parse_step tok st1) i) as [Hr' _].
  - intros t o' Ht. rewrite parse_step_opt, Hopt1. by apply Hlast.
  - lia.
  - by rewrite Hr'.
Qed.

Lemma value_bound_inline_witness :
  result_ (this (parse ("prog" :: ["-a"; "-afirst"; "x"] ++ "--long-a=last" :: ["-b"; "y"])
                   test_opt)) !! 0%nat
  = Some {| value := "last"; present := true |}.
Proof.
  apply (value_bound_inline test_opt "prog" "--long-a=last" "last"
           ["-a"; "-afirst"; "x"] ["-b"; "y"] 0 opt_a); [reflexivity..|].
  intros t o' Ht.
  repeat (apply elem_of_cons in Ht as [->|Ht]; [vm_compute; discriminate|]).
  by apply elem_of_nil in Ht.
Defined.

(** X17: when the last token that designates a value option carries no
    inline value and is followed by a token that [optRegex] does not match,
    this following token is the value stored for the option, whatever it
    is: a word, a number with a sign, a dash alone. *)
Theorem value_bound_deferred (self : OptParser) (prog tok v : string)
    (pre post : list string) (i : nat) (o : OptPar)
    (Hres : resolve (opt_ self) tok = Some (i, o))
    (Hvalue : type o = OptType.value)
    (Hbare : inline tok = None)
    (Hplain : is_option v = false)
    (Hlast : ∀ t o', t ∈ post → resolve (opt_ self) t ≠ Some (i, o')) :
  result_ (this (parse (prog :: pre ++ tok :: v :: post) self)) !! i
  = Some {| value := v; present := true |}.
Proof.
  rewrite parse_this.
  change (drop 1 (prog :: pre ++ tok :: v :: post)) with (pre ++ tok :: v :: post).
  rewrite parse_loop_app. cbn [parse_loop].
  set (st1 := parse_loop pre (parse_init self)).
  assert (opt_ (this st1) = opt_ self) as Hopt1 by apply parse_loop_opt.
  assert (frame_ok st1) as [Hlen _] by apply parse_loop_inv, parse_init_ok.
  pose proof (resolve_lookup _ _ _ _ Hres) as Hi%lookup_lt_Some.
  destruct (lookup_lt_is_Some_2 (result_ (this st1)) i) as [r Hr]; [rewrite Hlen, Hopt1; lia|].
  destruct (parse_step_bare tok st1 i o r) as (Hr2 & He2 & _); [by rewrite Hopt1|done..|].
  rewrite (parse_step_value v) by (done || lia).
  destruct (parse_loop_other post
              {| this := set_value (Z.to_nat (expectVal (parse_step tok st1))) v
                           (this (parse_step tok st1));
                 expectVal := -1; isCorrect := isCorrect (parse_step tok st1);
                 cerr := cerr (parse_step tok st1) |} i) as [Hr' _].
  - intros t o' Ht. cbn [this set_value opt_]. rewrite parse_step_opt, Hopt1. by apply Hlast.
  - cbn. lia.
  - rewrite Hr'. cbn [this set_value result_].
    by rewrite He2, Nat2Z.id, list_lookup_alter_eq, Hr2.
Qed.

Lemma value_bound_deferred_witness :
  result_ (this (parse ("prog" :: ["-afirst"] ++ "-a" :: "-5" :: ["-b"; "y"]) test_opt))
    !! 0%nat
  = Some {| value := "-5"; present := true |}.
Proof.
  apply (value_bound_deferred test_opt "prog" "-a" "-5" ["-afirst"] ["-b"; "y"] 0 opt_a);
    [reflexivity..|].
  intros t o' Ht.
  repeat (apply elem_of_cons in Ht as [->|Ht]; [vm_compute; discriminate|]).
  by apply elem_of_nil in Ht.
Defined.

(** ** Edge cases of [parse] *)

(** X18: without any token after the program name, [parse] leaves every
    option absent with its default value and no positional argument, writes
    one warning per mandatory option, in registration order, and returns
    [true] exactly when every option is optional. *)
Theorem parse_no_token (argv : list string) (self : OptParser)
    (Hempty : (length argv ≤ 1)%nat) :
  parse argv self
  = {| this := {| opt_ := opt_ self; result_ := defaults (opt_ self); arg_ := [] |};
       expectVal := -1;
       isCorrect := forallb optional (opt_ self);
       cerr := (λ o, MissingMandatoryOption (optName o))
                 <$> filter (λ o, optional o = false) (opt_ self) |}.
Proof.
  assert (drop 1 argv = []) as Hdrop.
  { destruct argv as [|a [|b argv]]; [done..|]. cbn in Hempty. lia. }
  unfold parse. rewrite Hdrop. cbn [parse_loop].
  unfold parse_pending. cbn [parse_init expectVal].
  rewrite bool_decide_eq_false_2 by lia.
  unfold parse_mandatory. cbn [this opt_ result_].
  change ((λ o, {| value := defaultVal o; present := false |}) <$> opt_ self)
    with (defaults (opt_ self)).
  by rewrite mandatory_fold_defaults.
Qed.

Lemma parse_no_token_witness :
  parse ["prog"] test_opt
  = {| this := {| opt_ := opt_ test_opt; result_ := defaults (opt_ test_opt); arg_ := [] |};
       expectVal := -1;
       isCorrect := forallb optional (opt_ test_opt);
       cerr := (λ o, MissingMandatoryOption (optName o))
                 <$> filter (λ o, optional o = false) (opt_ test_opt) |}.
Proof. apply (parse_no_token ["prog"] test_opt). cbn. lia. Defined.

(** The names through which a token can designate an option. *)
Lemma resolve_names opts tok i o :
  resolve opts tok = Some (i, o) →
  (∃ c, atom_match letters c = true ∧ shortName o = String c "")
  ∨ (longName o ≠ "" ∧ str_all (atom_match name_chars) (longName o) = true).
Proof.
  unfold resolve. destruct (regex_match tok optRegex_) as [sm|] eqn:Hmatch; [|done].
  rewrite regex_match_closed in Hmatch.
  destruct (short_form tok) as [sm'|] eqn:Hshort.
  - injection Hmatch as ->.
    apply short_form_Some in Hshort as (c & rest & -> & Hc & _ & ->).
    change (matched _ 1) with true. cbn match. change (str _ 2) with (String c "").
    intros (_ & Hname%bool_decide_eq_true_1 & _)%find_if_Some. left. by exists c.
  - apply long_form_Some in Hmatch as (n & r & -> & Hn & Hchars & _ & _ & ->).
    change (matched _ 1) with false. change (matched _ 4) with true. cbn match.
    change (str _ 5) with n.
    intros (_ & Hname%bool_decide_eq_true_1 & _)%find_if_Some. right. by rewrite Hname.
Qed.

(** X19: [addOption] does not look at the form of the names. An option
    whose short name is not a single letter and whose long name is empty or
    holds a character outside [[a-zA-Z_-]] is designated by no token: it
    is never present, and when it is mandatory every call to [parse]
    returns [false]. *)
Theorem option_out_of_reach (argv : list string) (self : OptParser)
    (i : nat) (o : OptPar)
    (Hopt : opt_ self !! i = Some o)
    (Hshort : ∀ c, atom_match letters c = true → shortName o ≠ String c "")
    (Hlong : longName o = "" ∨ str_all (atom_match name_chars) (longName o) = false) :
  (∀ tok o', resolve (opt_ self) tok ≠ Some (i, o'))
  ∧ (∃ r, result_ (this (parse argv self)) !! i = Some r ∧ present r = false)
  ∧ (optional o = false → isCorrect (parse argv self) = false).
Proof.
  assert (∀ tok o', resolve (opt_ self) tok ≠ Some (i, o')) as Hnone.
  { intros tok o' Hres. pose proof (resolve_lookup _ _ _ _ Hres) as Hi.
    assert (o' = o) as -> by congruence.
    destruct (resolve_names _ _ _ _ Hres) as [(c & Hc & Hname)|[Hne Hchars]].
    - by apply (Hshort c).
    - destruct Hlong; congruence. }
  split_and!; [done| |].
  - pose proof (parse_loop_present_other (drop 1 argv) (parse_init self) i) as Hp.
    rewrite <-parse_this in Hp. cbn in Hp. rewrite list_lookup_fmap, Hopt in Hp.
    destruct (result_ (this (parse argv self)) !! i) as [r|]; [|by discriminate Hp].
    exists r. split; [done|]. by injection Hp.
  - intros Hmandatory.
    by destruct (parse_missing_mandatory argv self i o Hopt Hmandatory).
Qed.

Lemma option_out_of_reach_witness :
  let self := {| opt_ := [{| shortName := "ab"; longName := "with space"; defaultVal := "";
                            helpMessage := ""; type := OptType.trigger; optional := false |}];
                 result_ := []; arg_ := [] |} in
  addOption "ab" "with space" OptType.trigger false "" "" new_parser = inr self
  ∧ (∀ tok o', resolve (opt_ self) tok ≠ Some (0%nat, o'))
  ∧ (∃ r, result_ (this (parse ["prog"; "-ab"; "--with space"] self)) !! 0%nat = Some r
          ∧ present r = false)
  ∧ isCorrect (parse ["prog"; "-ab"; "--with space"] self) = false.
Proof.
  intros self. split; [reflexivity|].
  destruct (option_out_of_reach ["prog"; "-ab"; "--with space"] self 0
              {| shortName := "ab"; longName := "with space"; defaultVal := "";
                 helpMessage := ""; type := OptType.trigger; optional := false |})
    as (Hnone & Habsent & Hfalse).
  - reflexivity.
  - intros c _. discriminate.
  - right. reflexivity.
  - split; [exact Hnone|]. split; [exact Habsent|]. by apply Hfalse.
Defined.

(** ** Unknown options *)

Lemma parse_step_unknown tok st t :
  UnknownOption t ∈ cerr (parse_step tok st)
  ↔ UnknownOption t ∈ cerr st
    ∨ (t = tok ∧ is_option tok = true ∧ resolve (opt_ (this st)) tok = None).
Proof.
  unfold is_option, resolve.
  step_cases;
    try match goal with
        | Hm : regex_match _ _ = Some ?sm, H1 : matched ?sm 1 = false,
          H4 : matched ?sm 4 = false |- _ =>
            apply regex_match_shapes in Hm as (_ & Hm & _);
            rewrite H1, H4 in Hm; discriminate Hm
        end;
    rewrite ?elem_of_app, ?list_elem_of_singleton; clear; intuition congruence.
Qed.

Lemma parse_loop_unknown arg st t :
  UnknownOption t ∈ cerr (parse_loop arg st)
  ↔ UnknownOption t ∈ cerr st
    ∨ (t ∈ arg ∧ is_option t = true ∧ resolve (opt_ (this st)) t = None).
Proof.
  revert st. induction arg as [|tok arg IH]; intros st.
  - cbn [parse_loop]. split; [by left|]. intros [?|[Hin _]]; [done|].
    by apply elem_of_nil in Hin.
  - cbn [parse_loop]. rewrite IH, parse_step_unknown, parse_step_opt, elem_of_cons.
    intuition congruence.
Qed.

Lemma mandatory_fold_unknown st l t :
  UnknownOption t ∈ cerr (foldl mandatory_step st l) ↔ UnknownOption t ∈ cerr st.
Proof.
  revert st. induction l as [|x l IH]; intros st; [done|].
  cbn [foldl]. rewrite IH. unfold mandatory_step. destruct (_ && _); [|done].
  cbn [cerr]. rewrite elem_of_app, list_elem_of_singleton. intuition congruence.
Qed.

(** X20: [parse] writes an unknown-option warning for a token exactly when
    the token is in the argument vector after the program name, is matched
    by [optRegex], and no registered option bears its name in the matching
    form. *)
Theorem unknown_option_warned (argv : list string) (self : OptParser) (t : string) :
  UnknownOption t ∈ cerr (parse argv self)
  ↔ t ∈ drop 1 argv ∧ is_option t = true ∧ resolve (opt_ self) t = None.
Proof.
  unfold parse, parse_mandatory. rewrite mandatory_fold_unknown.
  unfold parse_pending. case_bool_decide.
  - cbn [cerr]. rewrite elem_of_app, list_elem_of_singleton, parse_loop_unknown. cbn.
    rewrite elem_of_nil. intuition congruence.
  - rewrite parse_loop_unknown. cbn. rewrite elem_of_nil. intuition congruence.
Qed.

(** ** The integer conversions *)

Section conversion_facts.

Implicit Types (s rest : string) (x : N) (acc : Z).

Lemma pretty_char_digit x :
  (x < 10)%N →
  is_digit (pretty_N_char x) = true ∧ digit_value (pretty_N_char x) = Z.of_N x.
Proof.
  intros Hx.
  assert (x = 0 ∨ x = 1 ∨ x = 2 ∨ x = 3 ∨ x = 4 ∨ x = 5 ∨ x = 6 ∨ x = 7 ∨ x = 8 ∨ x = 9)%N
    as Hcases by lia.
  repeat (destruct Hcases as [->|Hcases]; [split; reflexivity|]).
  subst x. split; reflexivity.
Qed.

Lemma digit_not_space_nor_sign c :
  is_digit c = true →
  Ascii.is_space c = false ∧ c ≠ "-"%char ∧ c ≠ "+"%char.
Proof.
  destruct c as [[] [] [] [] [] [] [] []]; vm_compute; intros Hc; try discriminate Hc;
    by repeat split.
Qed.

Lemma digits_value_stop acc s : head_is is_digit s = false → digits_value acc s = acc.
Proof. destruct s as [|c s]; [done|]. cbn. by intros ->. Qed.

Lemma digits_value_pretty x s :
  digits_value 0 (pretty_N_go x s) = digits_value (Z.of_N x) s.
Proof.
  revert s. induction (N.lt_wf_0 x) as [x _ IH]; intros s.
  destruct (decide (x = 0)%N) as [->|Hx]; [by rewrite pretty_N_go_0|].
  rewrite pretty_N_go_step by lia. rewrite IH by (apply N.div_lt; lia).
  destruct (pretty_char_digit (x `mod` 10)) as [Hd Hv]; [by apply N.mod_lt|].
  cbn [digits_value]. rewrite Hd, Hv. f_equal.
  rewrite (N.div_mod x 10) at 3 by done. lia.
Qed.

Lemma pretty_N_go_app x s rest : pretty_N_go x s +:+ rest = pretty_N_go x (s +:+ rest).
Proof.
  revert s. induction (N.lt_wf_0 x) as [x _ IH]; intros s.
  destruct (decide (x = 0)%N) as [->|Hx]; [by rewrite !pretty_N_go_0|].
  rewrite (pretty_N_go_step x s), (pretty_N_go_step x (s +:+ rest)) by lia.
  by rewrite IH by (apply N.div_lt; lia).
Qed.

Lemma pretty_N_go_head x s :
  (0 < x)%N → ∃ c s', pretty_N_go x s = String c s' ∧ is_digit c = true.
Proof.
  revert s. induction (N.lt_wf_0 x) as [x _ IH]; intros s Hx.
  rewrite pretty_N_go_step by done.
  destruct (decide (x `div` 10 = 0)%N) as [->|Hdiv].
  - rewrite pretty_N_go_0. eexists _, _. split; [done|].
    by apply pretty_char_digit, N.mod_lt.
  - apply IH; [apply N.div_lt; lia|by apply N.neq_0_lt_0].
Qed.

Lemma pretty_Zpos p : pretty (Z.pos p) = pretty_N_go (N.pos p) "".
Proof. reflexivity. Qed.

Lemma pretty_Zneg p : pretty (Z.neg p) = String "-" (pretty_N_go (N.pos p) "").
Proof. reflexivity. Qed.

Lemma str_all_skip_space f s : str_all f s = true → str_all f (skip_space s) = true.
Proof.
  induction s as [|c s IH]; [done|]. cbn [skip_space].
  destruct (Ascii.is_space c); [|done]. cbn [str_all].
  intros [_ Hs]%andb_true_iff. by apply IH.
Qed.

Lemma str_all_head f s : str_all (λ c, negb (f c)) s = true → head_is f s = false.
Proof. destruct s as [|c s]; [done|]. cbn. intros [Hc _]%andb_true_iff. by destruct (f c). Qed.

(** What [strtol] makes of a number followed by a text without leading
    digit, once written by [strFrom<long>]. *)
Lemma strtol_pretty long_bits (v : Z) rest :
  head_is is_digit rest = false →
  strtol long_bits (strFrom_long v +:+ rest)
  = if bool_decide (v < LONG_MIN long_bits) then LONG_MIN long_bits
    else if bool_decide (LONG_MAX long_bits < v) then LONG_MAX long_bits
    else v.
Proof.
  intros Hrest. unfold strFrom_long, strtol. destruct v as [|p|p].
  - change (pretty 0 +:+ rest) with (String "0" rest). cbn [skip_space].
    change (Ascii.is_space "0") with false. cbn match.
    change (bool_decide ("0"%char = "-"%char)) with false.
    change (bool_decide ("0"%char = "+"%char)) with false. cbn [orb].
    cbn [digits_value]. change (is_digit "0") with true. cbn match.
    by rewrite (digits_value_stop _ _ Hrest).
  - rewrite pretty_Zpos, pretty_N_go_app.
    destruct (pretty_N_go_head (N.pos p) ("" +:+ rest)) as (c & s' & Heq & Hc); [lia|].
    destruct (digit_not_space_nor_sign c Hc) as (Hspace & Hminus & Hplus).
    rewrite Heq. cbn [skip_space]. rewrite Hspace.
    rewrite !(bool_decide_eq_false_2 (c = _)) by done. cbn [orb].
    rewrite <-Heq, digits_value_pretty.
    by rewrite (digits_value_stop _ _ Hrest).
  - rewrite pretty_Zneg, app_cons, pretty_N_go_app. cbn [skip_space].
    change (Ascii.is_space "-") with false. cbn match.
    change (bool_decide ("-"%char = "-"%char)) with true. cbn [orb].
    rewrite digits_value_pretty.
    by rewrite (digits_value_stop _ _ Hrest).
Qed.

End conversion_facts.

(** X21: [strTo<long>] and [strTo<int>] return 0 on every text that holds
    no decimal digit: the empty text, a word, a sign alone. *)
Theorem strTo_without_digit (long_bits int_bits : Z) (s : string)
    (Hlong : 1 ≤ long_bits)
    (Hint : 1 ≤ int_bits)
    (Hnone : str_all (λ c, negb (is_digit c)) s = true) :
  strTo_long long_bits s = 0 ∧ strTo_int long_bits int_bits s = 0.
Proof.
  assert (strtol long_bits s = 0) as Hzero.
  { unfold strtol. apply str_all_skip_space in Hnone.
    assert (digits_value 0
              match skip_space s with
              | String c s' =>
                  if bool_decide (c = "-"%char) || bool_decide (c = "+"%char)
                  then s' else skip_space s
              | EmptyString => skip_space s
              end = 0) as ->.
    { destruct (skip_space s) as [|c s'] eqn:Hs; [done|].
      destruct (_ || _).
      - apply digits_value_stop, str_all_head. cbn [str_all] in Hnone.
        by apply andb_true_iff in Hnone as [_ ?].
      - by apply digits_value_stop, str_all_head. }
    assert (0 < 2 ^ (long_bits - 1)) by (apply Z.pow_pos_nonneg; lia).
    unfold LONG_MIN, LONG_MAX.
    destruct (match skip_space s with String c _ => _ | EmptyString => false end);
      rewrite !bool_decide_eq_false_2 by lia; done. }
  unfold strTo_long, strTo_int, to_int. rewrite Hzero. split; [done|].
  assert (0 < 2 ^ (int_bits - 1)) by (apply Z.pow_pos_nonneg; lia).
  replace (2 ^ int_bits) with (2 * 2 ^ (int_bits - 1))
    by (rewrite <-Z.pow_succ_r by lia; f_equal; lia).
  rewrite Z.mod_small by lia. lia.
Qed.

Lemma strTo_without_digit_witness :
  strTo_long 64 "" = 0 ∧ strTo_int 64 32 "" = 0.
Proof. apply (strTo_without_digit 64 32 ""); [lia|lia|reflexivity]. Defined.

(** X22: [strTo<long>] reads back the number that [strFrom<long>] has
    written and ignores a following text that does not begin with a digit;
    a number beyond the range of [long] comes back as [LONG_MIN] or
    [LONG_MAX]. *)
Theorem strTo_long_strFrom (long_bits : Z) (v : Z) (rest : string)
    (Hrest : head_is is_digit rest = false) :
  strTo_long long_bits (strFrom_long v +:+ rest)
  = (if bool_decide (v < LONG_MIN long_bits) then LONG_MIN long_bits
     else if bool_decide (LONG_MAX long_bits < v) then LONG_MAX long_bits
     else v)
  ∧ (LONG_MIN long_bits ≤ v ≤ LONG_MAX long_bits →
     strTo_long long_bits (strFrom_long v +:+ rest) = v).
Proof.
  unfold strTo_long. rewrite (strtol_pretty long_bits v rest Hrest). split; [done|].
  intros [Hmin Hmax]. by rewrite !bool_decide_eq_false_2 by lia.
Qed.

Lemma strTo_long_strFrom_witness :
  strTo_long 64 (strFrom_long (-42) +:+ "abc") = -42
  ∧ strTo_long 64 (strFrom_long (2 ^ 70) +:+ "") = LONG_MAX 64.
Proof.
  destruct (strTo_long_strFrom 64 (-42) "abc" eq_refl) as [_ Hback].
  destruct (strTo_long_strFrom 64 (2 ^ 70) "" eq_refl) as [Hclamp _].
  split; [apply Hback; vm_compute; split; discriminate|].
  rewrite Hclamp. reflexivity.
Defined.

(** X23: [strTo<int>] reads back a number that [int] can hold; a number
    that only [long] can hold comes back reduced modulo [2 ^ int_bits],
    without any error. *)
Theorem strTo_int_strFrom (long_bits int_bits : Z) (v : Z) (rest : string)
    (Hbits : 1 ≤ int_bits)
    (Hrange : LONG_MIN long_bits ≤ v ≤ LONG_MAX long_bits)
    (Hrest : head_is is_digit rest = false) :
  strTo_int long_bits int_bits (strFrom_long v +:+ rest) = to_int int_bits v
  ∧ (- 2 ^ (int_bits - 1) ≤ v < 2 ^ (int_bits - 1) →
     strTo_int long_bits int_bits (strFrom_long v +:+ rest) = v)
  ∧ - 2 ^ (int_bits - 1) ≤ to_int int_bits v < 2 ^ (int_bits - 1).
Proof.
  unfold strTo_int. rewrite (strtol_pretty long_bits v rest Hrest).
  rewrite !bool_decide_eq_false_2 by lia.
  assert (0 < 2 ^ (int_bits - 1)) by (apply Z.pow_pos_nonneg; lia).
  assert (2 ^ int_bits = 2 * 2 ^ (int_bits - 1)) as Hpow
    by (rewrite <-Z.pow_succ_r by lia; f_equal; lia).
  unfold to_int. split_and!.
  - done.
  - intros Hv. rewrite Z.mod_small by lia. lia.
  - pose proof (Z.mod_pos_bound (v + 2 ^ (int_bits - 1)) (2 ^ int_bits)). lia.
  - pose proof (Z.mod_pos_bound (v + 2 ^ (int_bits - 1)) (2 ^ int_bits)). lia.
Qed.

Lemma strTo_int_strFrom_witness :
  strTo_int 64 32 (strFrom_long 4294967297 +:+ "") = to_int 32 4294967297
  ∧ to_int 32 4294967297 = 1
  ∧ strTo_int 64 32 (strFrom_long (-7) +:+ "x") = -7.
Proof.
  destruct (strTo_int_strFrom 64 32 4294967297 "") as (Hwrap & _ & _);
    [lia|vm_compute; split; discriminate|reflexivity|].
  destruct (strTo_int_strFrom 64 32 (-7) "x") as (_ & Hback & _);
    [lia|vm_compute; split; discriminate|reflexivity|].
  split; [exact Hwrap|]. split; [reflexivity|]. apply Hback. lia.
Defined.

(** ** Two calls in a row *)

(** C9: a call to [parse] starts from the registry alone, whatever the
    object held before: the outcome is the one obtained on an object with
    the same registry, an empty result store and no positional argument.
    Parsing [y] after [x] therefore leaves the object, the returned value
    and the warnings of parsing [y] alone, and nothing of [x] is left: an
    option that no token of [y] designates is not present and has its
    default value, the positional arguments are tokens of [y], and with no
    token in [y] the result store holds the defaults only and the
    positional arguments are empty. *)
Theorem parse_twice (x y : list string) (self : OptParser) :
  parse y (this (parse x self)) = parse y self
  ∧ result_ (this (parse y (this (parse x self)))) = result_ (this (parse y self))
  ∧ arg_ (this (parse y (this (parse x self)))) = arg_ (this (parse y self))
  ∧ parse_init (this (parse x self))
    = {| this := {| opt_ := opt_ self; result_ := defaults (opt_ self); arg_ := [] |};
         expectVal := -1; isCorrect := true; cerr := [] |}
  ∧ parse y self = parse y {| opt_ := opt_ self; result_ := []; arg_ := [] |}
  ∧ opt_ (this (parse y (this (parse x self)))) = opt_ self
  ∧ length (result_ (this (parse y (this (parse x self))))) = length (opt_ self)
  ∧ (∀ i o, opt_ self !! i = Some o →
       (∀ tok o', tok ∈ drop 1 y → resolve (opt_ self) tok ≠ Some (i, o')) →
       result_ (this (parse y (this (parse x self)))) !! i
       = Some {| value := defaultVal o; present := false |})
  ∧ arg_ (this (parse y (this (parse x self))))
    `sublist_of` filter (λ t, is_option t = false) (drop 1 y)
  ∧ ((length y ≤ 1)%nat →
     this (parse y (this (parse x self)))
     = {| opt_ := opt_ self; result_ := defaults (opt_ self); arg_ := [] |}).
Proof.
  assert (parse y (this (parse x self)) = parse y self) as Heq.
  { apply parse_ext, parse_opt. }
  rewrite Heq.
  split; [done|]. split; [done|]. split; [done|].
  split; [unfold parse_init; by rewrite parse_opt|].
  split; [by apply parse_ext|].
  split; [apply parse_opt|].
  split; [by rewrite parse_result_length, parse_opt|].
  split; [|split].
  - intros i o Hopt Habsent. rewrite parse_this.
    destruct (parse_loop_other (drop 1 y) (parse_init self) i) as [-> _];
      [done|cbn; lia|].
    unfold parse_init. cbn [this result_].
    by rewrite list_lookup_fmap, Hopt.
  - rewrite parse_this.
    by destruct (parse_loop_arg (drop 1 y) (parse_init self)) as (l & -> & Hl).
  - intros Hlen. rewrite parse_this.
    assert (drop 1 y = []) as ->; [|done].
    destruct y as [|a [|b y]]; [done..|]. cbn in Hlen. lia.
Qed.

Lemma parse_twice_witness :
  let x := ["prog"; "-afoo"; "-b"; "positional1"] in
  let y := ["prog"; "-b"; "extra"] in
  parse y (this (parse x test_opt)) = parse y test_opt
  ∧ parse y test_opt = parse y {| opt_ := opt_ test_opt; result_ := []; arg_ := [] |}
  ∧ result_ (this (parse x test_opt)) !! 0%nat = Some {| value := "foo"; present := true |}
  ∧ result_ (this (parse y (this (parse x test_opt)))) !! 0%nat
    = Some {| value := defaultVal opt_a; present := false |}
  ∧ arg_ (this (parse y (this (parse x test_opt))))
    `sublist_of` filter (λ t, is_option t = false) (drop 1 y)
  ∧ this (parse ["prog"] (this (parse x test_opt)))
    = {| opt_ := opt_ test_opt; result_ := defaults (opt_ test_opt); arg_ := [] |}.
Proof.
  intros x y.
  destruct (parse_twice x y test_opt)
    as (Hsame & _ & _ & _ & Hfresh & _ & _ & Habsent & Hargs & _).
  destruct (parse_twice x ["prog"] test_opt) as (_ & _ & _ & _ & _ & _ & _ & _ & _ & Hempty).
  split; [exact Hsame|]. split; [exact Hfresh|]. split; [reflexivity|].
  split.
  { apply (Habsent 0%nat opt_a); [reflexivity|]. intros tok o' Hin.
    repeat (apply elem_of_cons in Hin as [->|Hin]; [vm_compute; discriminate|]).
    by apply elem_of_nil in Hin. }
  split; [exact Hargs|]. apply Hempty. cbn. lia.
Defined.

(** The value and the positional argument of the first call are gone. *)
Example parse_twice_test :
  this (parse ["prog"; "-b"; "extra"] (this (parse ["prog"; "-afoo"; "positional1"] test_opt)))
  = {| opt_ := [opt_a; opt_b];
       result_ := [{| value := ""; present := false |}; {| value := ""; present := true |}];
       arg_ := ["extra"] |}.
Proof. reflexivity. Qed.
